(** * GeneWalk: significance testing and report assembly

    A shallow embedding of [src/genewalk/genewalk.py]: the empirical p-value
    estimator [P_sim], the per-gene enrichment [get_GO_df] (with the
    Benjamini-Hochberg correction of statsmodels' [fdrcorrection]) and the
    report assembly [generate_output].

    Modelling choices.
    - Similarities and p-values are rationals ([Q]); the arithmetic of the
      code ([float(RANK)/len], [1-PCT_RANK], [p*n/k]) is done exactly.
    - Python exceptions are the constructors of [exn]; a computation that may
      raise returns a [result].
    - The multigraph, the node vectors and the null table are the objects the
      class loads from pickles; they are fields of the record [genewalk].
    - [generate_output] refers to [GW[tr]] (line 75), a name the module does
      not bind: it is a global of the session the method runs in.  The graph
      it designates is the field [gw_tr_graph]. *)

From Stdlib Require Import QArith Qminmax Ascii Sorting.Permutation Sorting.Sorted.
From stdpp Require Import base list gmap strings.

Local Open Scope Q_scope.

(** ** Exceptions and the error monad *)

Inductive exn := KeyError | ZeroDivisionError | ValueError.

Inductive result (A : Type) := Ok (a : A) | Err (e : exn).
Arguments Ok {A} a.
Arguments Err {A} e.

Global Instance result_ret : MRet result := fun _ a => Ok a.
Global Instance result_bind : MBind result := fun _ _ f m =>
  match m with Ok a => f a | Err e => Err e end.

(** [d[k]] on a Python dict: [KeyError] when the key is absent. *)
Definition getitem {K V} `{Countable K} (m : gmap K V) (k : K) : result V :=
  match m !! k with Some v => Ok v | None => Err KeyError end.

(** Strict comparison of rationals as a boolean. *)
Definition Qltb (x y : Q) : bool :=
  match Qcompare x y with Lt => true | _ => false end.

(** ** The null-distribution key *)

(** Decimal digits of a natural number. *)
Fixpoint dec_digits (fuel n : nat) (acc : string) : string :=
  match fuel with
  | O => acc
  | S f =>
      let acc' := String (ascii_of_nat (48 + n mod 10)) acc in
      if Nat.ltb n 10 then acc' else dec_digits f (n / 10) acc'
  end.

Definition str_nat (n : nat) : string := dec_digits (S n) n "".

(** [str(np.floor(np.log2(N_con)))]: [np.log2] of a positive integer,
    floored, is the integer [Nat.log2 N_con] printed as a float ("3.0");
    [np.log2(0)] is [-inf].  The double-precision logarithm is taken exact:
    it is for every connectivity a graph can have. *)
Definition str_floor_log2 (N_con : nat) : string :=
  if Nat.eqb N_con 0 then "-inf" else str_nat (Nat.log2 N_con) +:+ ".0".

(** [dist_key='d'+str(np.floor(np.log2(N_con)))] *)
Definition dist_key (N_con : nat) : string := "d" +:+ str_floor_log2 N_con.

(** ** [np.searchsorted(a, v, side='left')]

    numpy's binary search ([binsearch] with [side='left']):
    [while min < max: mid = min + ((max-min) >> 1);
       if a[mid] < v: min = mid + 1 else: max = mid]. *)
Fixpoint searchsorted_loop (fuel : nat) (a : list Q) (v : Q) (lo hi : nat) : nat :=
  match fuel with
  | O => lo
  | S f =>
      if Nat.ltb lo hi then
        let mid := (lo + (hi - lo) / 2)%nat in
        if Qltb (nth mid a 0) v then searchsorted_loop f a v (S mid) hi
        else searchsorted_loop f a v lo mid
      else lo
  end.

Definition searchsorted_left (a : list Q) (v : Q) : nat :=
  searchsorted_loop (length a) a v 0 (length a).

(** ** [P_sim] *)

Definition P_sim (srd : gmap string (list Q)) (sim : Q) (N_con : nat) : result Q :=
  d ← getitem srd (dist_key N_con);
  let RANK := searchsorted_left d sim in
  if Nat.eqb (length d) 0 then Err ZeroDivisionError
  else
    let PCT_RANK := inject_Z (Z.of_nat RANK) / inject_Z (Z.of_nat (length d)) in
    Ok (1 - PCT_RANK).

(** Ascending order of a null sequence. *)
Fixpoint is_sorted (l : list Q) : bool :=
  match l with
  | x :: ((y :: _) as t) => Qle_bool x y && is_sorted t
  | _ => true
  end.

(** The leftmost insertion rank of [v] into an ascending sequence: the
    number of its elements strictly below [v]. *)
Definition leftmost_rank (a : list Q) (v : Q) : nat :=
  length (filter (fun x => Qltb x v = true) a).

(** ** Benjamini-Hochberg: [statsmodels.stats.multitest.fdrcorrection(method='indep')] *)

(** Insertion of index [i] into [l], ordered by the values [pvals[i]]. *)
Fixpoint insert_index (pvals : list Q) (i : nat) (l : list nat) : list nat :=
  match l with
  | [] => [i]
  | j :: l' =>
      if Qle_bool (nth i pvals 0) (nth j pvals 0) then i :: j :: l'
      else j :: insert_index pvals i l'
  end.

(** [np.argsort(pvals)].  numpy's default sort is not stable; the order it
    gives to equal p-values does not change the corrected values, since
    equal p-values receive equal corrected values. *)
Definition argsort (pvals : list Q) : list nat :=
  fold_right (insert_index pvals) [] (seq 0 (length pvals)).

(** [_ecdf(x) = np.arange(1, nobs+1)/float(nobs)] *)
Definition ecdf (nobs : nat) : list Q :=
  map (fun k => inject_Z (Z.of_nat (S k)) / inject_Z (Z.of_nat nobs)) (seq 0 nobs).

(** [np.minimum.accumulate] *)
Fixpoint min_acc (m : Q) (l : list Q) : list Q :=
  match l with
  | [] => []
  | x :: xs => let m' := Qmin m x in m' :: min_acc m' xs
  end.

Definition minimum_accumulate (l : list Q) : list Q :=
  match l with [] => [] | x :: xs => x :: min_acc x xs end.

(** Position of [i] in [l] ([length l] when absent). *)
Fixpoint index_in (i : nat) (l : list nat) : nat :=
  match l with
  | [] => O
  | j :: l' => if Nat.eqb i j then O else S (index_in i l')
  end.

Definition fdrcorrection_indep (pvals : list Q) : list Q :=
  let pvals_sortind := argsort pvals in
  let pvals_sorted := map (fun i => nth i pvals 0) pvals_sortind in
  let ecdffactor := ecdf (length pvals_sorted) in
  let pvals_corrected_raw := zip_with Qdiv pvals_sorted ecdffactor in
  let pvals_corrected := rev (minimum_accumulate (rev pvals_corrected_raw)) in
  (* pvals_corrected[pvals_corrected>1] = 1 *)
  let pvals_corrected := map (fun q => if Qltb 1 q then 1 else q) pvals_corrected in
  (* pvals_corrected_[pvals_sortind] = pvals_corrected *)
  map (fun i => nth (index_in i pvals_sortind) pvals_corrected 0)
      (seq 0 (length pvals)).

(** ** The loaded objects *)

(** A networkx multigraph: node iteration order, adjacency dicts (their keys,
    the distinct neighbours) and node attribute dicts. *)
Record graph := {
  g_nodes : list string;
  g_adj : gmap string (list string);
  g_attr : gmap string (gmap string string)
}.

Record genewalk := {
  hgncid : list string;
  MG_graph : graph;
  (** [self.nv.most_similar(n, topn=len(self.nv.vocab))]: the other nodes
      ranked by descending similarity; [None] when [n] has no vector
      (gensim raises [KeyError]). *)
  nv_most_similar : string -> option (list (string * Q));
  srd : gmap string (list Q);
  gw_tr_graph : graph
}.

(** [set(nx.get_node_attributes(self.MG.graph,'GO'))] *)
Definition GO_nodes (G : graph) : list string :=
  filter (fun n => match g_attr G !! n with
                   | Some a => match a !! "GO" with Some _ => true | None => false end
                   | None => false end = true) (g_nodes G).

(** ** [get_GO_df] *)

(** The columns of [simdf] before the correction. *)
Record cand := {
  c_desc : string; c_go_id : string; c_n_con_go : nat; c_similarity : Q; c_pval : Q
}.

(** The columns of the table [get_GO_df] returns. *)
Record go_row := {
  go_desc : string; go_id : string; n_con_go : nat;
  similarity : Q; pval : Q; padj : Q
}.

Definition with_padj (c : cand) (q : Q) : go_row :=
  {| go_desc := c_desc c; go_id := c_go_id c; n_con_go := c_n_con_go c;
     similarity := c_similarity c; pval := c_pval c; padj := q |}.

(** One iteration of [for i in simdf.index]. *)
Definition go_candidate (gw : genewalk) (N_gene_con : nat) (x : string * Q) : result cand :=
  let '(go, sim) := x in
  adj ← getitem (g_adj (MG_graph gw)) go;
  let N_GO_con := length adj in
  attrs ← getitem (g_attr (MG_graph gw)) go;
  des ← getitem attrs "name";
  p ← P_sim (srd gw) sim (Nat.min N_GO_con N_gene_con);
  Ok {| c_desc := des; c_go_id := go; c_n_con_go := N_GO_con;
        c_similarity := sim; c_pval := p |}.

Fixpoint cand_loop (gw : genewalk) (N_gene_con : nat) (rows : list (string * Q))
  : result (list cand) :=
  match rows with
  | [] => Ok []
  | x :: xs =>
      c ← go_candidate gw N_gene_con x;
      cs ← cand_loop gw N_gene_con xs;
      Ok (c :: cs)
  end.

(** [simdf] restricted to [GO_con2gene]. *)
Definition GO_simdf (gw : genewalk) (geneoi : string) : result (list (string * Q)) :=
  nbrs ← getitem (g_adj (MG_graph gw)) geneoi;
  let GO_con2gene := filter (fun m => m ∈ GO_nodes (MG_graph gw)) nbrs in
  ranked ← (match nv_most_similar gw geneoi with
            | Some l => Ok l | None => Err KeyError end);
  Ok (filter (fun x => x.1 ∈ GO_con2gene) ranked).

(** [simdf] with its [padj] column, before the final filter. *)
Definition GO_table (gw : genewalk) (geneoi : string) (N_gene_con : nat)
  : result (list go_row) :=
  simdf ← GO_simdf gw geneoi;
  cs ← cand_loop gw N_gene_con simdf;
  let q_val := fdrcorrection_indep (map c_pval cs) in
  Ok (zip_with with_padj cs q_val).

Definition get_GO_df (gw : genewalk) (geneoi : string) (N_gene_con : nat) (alpha_FDR : Q)
  : result (list go_row) :=
  simdf ← GO_table gw geneoi N_gene_con;
  Ok (filter (fun r => Qltb (padj r) alpha_FDR = true) simdf).

(** ** [generate_output] *)

Record report_row := {
  r_hgnc : string; r_hugo : string; r_go_desc : string; r_go_id : string;
  r_n_con_gene : nat; r_n_con_go : nat; r_similarity : Q; r_pval : Q; r_padj : Q
}.

Definition mk_report_row (h hugo : string) (N_gene_con : nat) (r : go_row) : report_row :=
  {| r_hgnc := h; r_hugo := hugo; r_go_desc := go_desc r; r_go_id := go_id r;
     r_n_con_gene := N_gene_con; r_n_con_go := n_con_go r;
     r_similarity := similarity r; r_pval := pval r; r_padj := padj r |}.

(** The body of the [try] block for node [n]. *)
Definition process_node (gw : genewalk) (alpha_FDR : Q) (n : string)
  : result (list report_row) :=
  attrs ← getitem (g_attr (MG_graph gw)) n;
  h ← getitem attrs "HGNC";
  if decide (h ∈ hgncid gw) then
    adj ← getitem (g_adj (MG_graph gw)) n;
    let N_gene_con := length adj in
    GOdf ← get_GO_df gw n N_gene_con alpha_FDR;
    tr_attrs ← getitem (g_attr (gw_tr_graph gw)) n;
    h' ← getitem tr_attrs "HGNC";
    Ok (map (mk_report_row h' n N_gene_con) GOdf)
  else Ok [].

(** [for n in g_view: try: ... except KeyError: pass] *)
Fixpoint gen_loop (gw : genewalk) (alpha_FDR : Q) (ns : list string)
  (outdf : list report_row) : result (list report_row) :=
  match ns with
  | [] => Ok outdf
  | n :: rest =>
      match process_node gw alpha_FDR n with
      | Ok GOdf => gen_loop gw alpha_FDR rest (outdf ++ GOdf)
      | Err KeyError => gen_loop gw alpha_FDR rest outdf
      | Err e => Err e
      end
  end.

(** Category code of a gene ID after [cat.set_categories(self.hgncid)]:
    its position in the list; [None] (NaN, sorted last) when absent. *)
Fixpoint cat_code (cats : list string) (h : string) : option nat :=
  match cats with
  | [] => None
  | c :: cs => if String.eqb c h then Some O else option_map S (cat_code cs h)
  end.

Definition code_le (c1 c2 : option nat) : bool :=
  match c1, c2 with
  | Some i, Some j => Nat.leb i j
  | _, None => true
  | None, Some _ => false
  end.

(** The order on the columns [padj], then [pval]. *)
Definition padj_pval_le (r1 r2 : report_row) : bool :=
  Qltb (r_padj r1) (r_padj r2) ||
  (Qeq_bool (r_padj r1) (r_padj r2) && Qle_bool (r_pval r1) (r_pval r2)).

(** The order of [sort_values(by=['HGNC:ID','padj','pval'])]. *)
Definition row_le (cats : list string) (r1 r2 : report_row) : bool :=
  let c1 := cat_code cats (r_hgnc r1) in
  let c2 := cat_code cats (r_hgnc r2) in
  negb (code_le c2 c1) || (code_le c1 c2 && padj_pval_le r1 r2).

Fixpoint insert_row (cats : list string) (r : report_row) (l : list report_row)
  : list report_row :=
  match l with
  | [] => [r]
  | y :: ys => if row_le cats r y then r :: y :: ys else y :: insert_row cats r ys
  end.

(** A stable sort (pandas sorts on several columns with a stable lexsort). *)
Definition sort_values (cats : list string) (rows : list report_row) : list report_row :=
  fold_right (insert_row cats) [] rows.

(** [astype("category")], [cat.set_categories(self.hgncid)] (pandas refuses
    non-unique categories with a [ValueError]) and [sort_values]. *)
Definition sort_report (cats : list string) (outdf : list report_row)
  : result (list report_row) :=
  if decide (NoDup cats) then Ok (sort_values cats outdf) else Err ValueError.

Definition generate_output (gw : genewalk) (alpha_FDR : Q) : result (list report_row) :=
  outdf ← gen_loop gw alpha_FDR (g_nodes (MG_graph gw)) [];
  sort_report (hgncid gw) outdf.

(** ** Sample data *)

Definition null_bucket : list Q := [0.1; 0.3; 0.5; 0.7; 0.9].

Definition srd_ex : gmap string (list Q) := {[ "d0.0" := null_bucket ]}.

(** Three genes of interest (HGNC ids G1, G2, G3 on nodes A1, A2, A3) and
    three GO terms.  A3 has no GO neighbour. *)
Definition G_ex : graph := {|
  g_nodes := ["A2"; "T1"; "A1"; "T2"; "T3"; "A3"];
  g_adj := list_to_map [("A1", ["T1"; "T2"; "T3"]); ("A2", ["T1"; "A3"]);
                        ("A3", ["A2"]); ("T1", ["A1"; "A2"]);
                        ("T2", ["A1"]); ("T3", ["A1"])];
  g_attr := list_to_map [("A1", {[ "HGNC" := "G1" ]}); ("A2", {[ "HGNC" := "G2" ]});
                         ("A3", {[ "HGNC" := "G3" ]});
                         ("T1", list_to_map [("GO", "GO:1"); ("name", "term one")]);
                         ("T2", list_to_map [("GO", "GO:2"); ("name", "term two")]);
                         ("T3", list_to_map [("GO", "GO:3"); ("name", "term three")])] |}.

Definition most_similar_ex (n : string) : option (list (string * Q)) :=
  if String.eqb n "A1" then Some [("T1", 0.95); ("T3", 0.92); ("A2", 0.85); ("T2", 0.8)]
  else if String.eqb n "A2" then Some [("A1", 0.85); ("T1", 0.6); ("A3", 0.2)]
  else if String.eqb n "A3" then Some [("A2", 0.2)]
  else None.

Definition with_srd (gw : genewalk) (t : gmap string (list Q)) : genewalk := {|
  hgncid := hgncid gw; MG_graph := MG_graph gw; nv_most_similar := nv_most_similar gw;
  srd := t; gw_tr_graph := gw_tr_graph gw |}.

Definition gw_ex : genewalk := {|
  hgncid := ["G1"; "G2"; "G3"]; MG_graph := G_ex; nv_most_similar := most_similar_ex;
  srd := {[ "d0.0" := null_bucket; "d1.0" := null_bucket ]}; gw_tr_graph := G_ex |}.

(** The same graph with the bucket "d0.0" missing. *)
Definition gw_c7 : genewalk := with_srd gw_ex {[ "d1.0" := null_bucket ]}.

(** The same graph with an empty bucket "d1.0". *)
Definition gw_c8 : genewalk :=
  with_srd gw_ex {[ "d0.0" := null_bucket; "d1.0" := [] ]}.

(** The same object with the gene list holding G1 twice. *)
Definition gw_dup : genewalk := {|
  hgncid := ["G1"; "G2"; "G1"]; MG_graph := G_ex; nv_most_similar := most_similar_ex;
  srd := srd gw_ex; gw_tr_graph := G_ex |}.

(** * Properties *)

Example dist_key_8 : dist_key 8 = "d3.0". Proof. reflexivity. Qed.
Example dist_key_9 : dist_key 9 = "d3.0". Proof. reflexivity. Qed.
Example dist_key_1024 : dist_key 1024 = "d10.0". Proof. reflexivity. Qed.
Example ss_ex : searchsorted_left [0.1;0.3;0.5;0.7;0.9] 0.6 = 3%nat.
Proof. vm_compute. reflexivity. Qed.

Lemma Qltb_spec x y : Qltb x y = true <-> x < y.
Proof.
  unfold Qltb. rewrite Qlt_alt. destruct (x ?= y); split; congruence.
Qed.

(** ** The binary search *)

Lemma mid_bounds (lo hi : nat) :
  (lo < hi)%nat -> (lo <= lo + (hi - lo) / 2 < hi)%nat.
Proof.
  intros H. split; [lia|].
  assert ((hi - lo) / 2 < hi - lo)%nat by (apply Nat.div_lt; lia). lia.
Qed.

Lemma searchsorted_loop_bounds fuel a v lo hi :
  (lo <= hi)%nat -> (lo <= searchsorted_loop fuel a v lo hi <= hi)%nat.
Proof.
  revert lo hi. induction fuel as [|f IH]; intros lo hi Hle; cbn [searchsorted_loop]; [lia|].
  destruct (Nat.ltb_spec lo hi) as [Hlt|Hge]; [|lia].
  pose proof (mid_bounds lo hi Hlt) as Hm.
  set (mid := (lo + (hi - lo) / 2)%nat) in *.
  destruct (Qltb _ v).
  - assert (Hs : (S mid <= hi)%nat) by lia.
    pose proof (IH (S mid) hi Hs). lia.
  - assert (Hs : (lo <= mid)%nat) by lia.
    pose proof (IH lo mid Hs). lia.
Qed.

(** The rank is monotone in the searched value, whatever the array. *)
Lemma searchsorted_loop_mono fuel a v1 v2 lo hi :
  v1 <= v2 -> (lo <= hi)%nat ->
  (searchsorted_loop fuel a v1 lo hi <= searchsorted_loop fuel a v2 lo hi)%nat.
Proof.
  intros Hv. revert lo hi. induction fuel as [|f IH]; intros lo hi Hle; cbn [searchsorted_loop]; [lia|].
  destruct (Nat.ltb_spec lo hi) as [Hlt|Hge]; [|lia].
  pose proof (mid_bounds lo hi Hlt) as Hm.
  set (mid := (lo + (hi - lo) / 2)%nat) in *.
  destruct (Qltb (nth mid a 0) v1) eqn:E1, (Qltb (nth mid a 0) v2) eqn:E2.
  - apply IH; lia.
  - exfalso. apply Qltb_spec in E1.
    assert (Hlt2 : nth mid a 0 < v2) by (eapply Qlt_le_trans; eauto).
    apply Qltb_spec in Hlt2. congruence.
  - pose proof (searchsorted_loop_bounds f a v1 lo mid ltac:(lia)) as B1.
    pose proof (searchsorted_loop_bounds f a v2 (S mid) hi ltac:(lia)) as B2. lia.
  - apply IH; lia.
Qed.

Lemma searchsorted_loop_all_lt fuel a v lo hi :
  (hi - lo <= fuel)%nat -> (lo <= hi)%nat ->
  (forall i, (lo <= i < hi)%nat -> Qltb (nth i a 0) v = true) ->
  searchsorted_loop fuel a v lo hi = hi.
Proof.
  revert lo hi. induction fuel as [|f IH]; intros lo hi Hf Hle Hall; cbn [searchsorted_loop]; [lia|].
  destruct (Nat.ltb_spec lo hi) as [Hlt|Hge]; [|lia].
  pose proof (mid_bounds lo hi Hlt) as Hm.
  rewrite Hall by lia. apply IH; [lia|lia|].
  intros i Hi. apply Hall. lia.
Qed.

Lemma searchsorted_loop_none_lt fuel a v lo hi :
  (lo <= hi)%nat ->
  (forall i, (lo <= i < hi)%nat -> Qltb (nth i a 0) v = false) ->
  searchsorted_loop fuel a v lo hi = lo.
Proof.
  revert lo hi. induction fuel as [|f IH]; intros lo hi Hle Hall; cbn [searchsorted_loop]; [done|].
  destruct (Nat.ltb_spec lo hi) as [Hlt|Hge]; [|done].
  pose proof (mid_bounds lo hi Hlt) as Hm.
  rewrite Hall by lia. apply IH; [lia|].
  intros i Hi. apply Hall. lia.
Qed.

Lemma is_sorted_nth (a : list Q) i j :
  is_sorted a = true -> (i <= j < length a)%nat -> nth i a 0 <= nth j a 0.
Proof.
  revert i j. induction a as [|x a IH]; intros i j Hs Hij; simpl in *; [lia|].
  assert (Hx : forall k, (k < length a)%nat -> x <= nth k a 0).
  { clear IH i j Hij. revert x Hs. induction a as [|y a IHa]; intros x Hs k Hk;
      simpl in *; [lia|].
    apply andb_true_iff in Hs as [Hxy Hs]. apply Qle_bool_iff in Hxy.
    destruct k as [|k]; [done|].
    eapply Qle_trans; [exact Hxy|]. apply IHa; [done|lia]. }
  destruct i as [|i], j as [|j]; try lia.
  - apply Qle_refl.
  - apply Hx. lia.
  - apply IH; [|lia]. destruct a; [done|]. apply andb_true_iff in Hs. tauto.
Qed.

(** On an ascending array the search returns a split point: everything
    before it is below [v], nothing from it on is. *)
Lemma searchsorted_loop_split fuel a v lo hi :
  is_sorted a = true -> (hi <= length a)%nat -> (hi - lo <= fuel)%nat -> (lo <= hi)%nat ->
  (forall i, (i < lo)%nat -> Qltb (nth i a 0) v = true) ->
  (forall i, (hi <= i < length a)%nat -> Qltb (nth i a 0) v = false) ->
  let r := searchsorted_loop fuel a v lo hi in
  (forall i, (i < r)%nat -> Qltb (nth i a 0) v = true) /\
  (forall i, (r <= i < length a)%nat -> Qltb (nth i a 0) v = false).
Proof.
  intros Hs. revert lo hi.
  induction fuel as [|f IH]; intros lo hi Hhi Hf Hle Hlo Hup; cbn [searchsorted_loop].
  - assert (lo = hi) by lia. subst. auto.
  - destruct (Nat.ltb_spec lo hi) as [Hlt|Hge]; [|assert (lo = hi) by lia; subst; auto].
    pose proof (mid_bounds lo hi Hlt) as Hm.
    set (mid := (lo + (hi - lo) / 2)%nat) in *.
    destruct (Qltb (nth mid a 0) v) eqn:E.
    + apply IH; [lia|lia|lia| |exact Hup].
      intros i Hi. destruct (decide (i < lo)%nat); [auto|].
      apply Qltb_spec. apply Qltb_spec in E.
      eapply Qle_lt_trans; [|exact E]. apply is_sorted_nth; [done|lia].
    + apply IH; [lia|lia|lia|exact Hlo|].
      intros i Hi. destruct (decide (hi <= i)%nat); [apply Hup; lia|].
      destruct (Qltb (nth i a 0) v) eqn:Ei; [|done].
      exfalso. apply Qltb_spec in Ei.
      assert (Hx : nth mid a 0 < v).
      { eapply Qle_lt_trans; [|exact Ei]. apply is_sorted_nth; [done|lia]. }
      apply Qltb_spec in Hx. congruence.
Qed.

Lemma split_count (a : list Q) v r :
  (r <= length a)%nat ->
  (forall i, (i < r)%nat -> Qltb (nth i a 0) v = true) ->
  (forall i, (r <= i < length a)%nat -> Qltb (nth i a 0) v = false) ->
  leftmost_rank a v = r.
Proof.
  unfold leftmost_rank. revert r.
  induction a as [|x a IH]; intros r Hr Hlo Hup; simpl in *; [lia|].
  destruct r as [|r].
  - pose proof (Hup 0%nat ltac:(lia)) as H0. cbn in H0.
    rewrite filter_cons, decide_False by congruence.
    apply (IH 0%nat); [lia|intros; lia|].
    intros i Hi. apply (Hup (S i)). lia.
  - pose proof (Hlo 0%nat ltac:(lia)) as H0. cbn in H0.
    rewrite filter_cons, decide_True by done. cbn [length]. f_equal.
    apply IH; [lia| |].
    + intros i Hi. apply (Hlo (S i)). lia.
    + intros i Hi. apply (Hup (S i)). lia.
Qed.

Lemma searchsorted_left_rank (a : list Q) v :
  is_sorted a = true -> searchsorted_left a v = leftmost_rank a v.
Proof.
  intros Hs. unfold searchsorted_left.
  destruct (searchsorted_loop_split (length a) a v 0 (length a) Hs) as [H1 H2];
    [lia|lia|lia|intros; lia|intros; lia|].
  symmetry. apply split_count; [|done|done].
  pose proof (searchsorted_loop_bounds (length a) a v 0 (length a) ltac:(lia)). lia.
Qed.

(** ** Arithmetic of [1 - RANK/len] *)

Lemma inject_nat_le (r L : nat) :
  (r <= L)%nat -> inject_Z (Z.of_nat r) <= inject_Z (Z.of_nat L).
Proof. intros H. rewrite <- Zle_Qle. lia. Qed.

Lemma inject_nat_pos (L : nat) : (0 < L)%nat -> 0 < inject_Z (Z.of_nat L).
Proof. intros H. change 0 with (inject_Z 0). rewrite <- Zlt_Qlt. lia. Qed.

Lemma one_minus_ratio_le (r1 r2 L : nat) :
  (r1 <= r2)%nat -> (0 < L)%nat ->
  1 - inject_Z (Z.of_nat r2) / inject_Z (Z.of_nat L) <=
  1 - inject_Z (Z.of_nat r1) / inject_Z (Z.of_nat L).
Proof.
  intros H HL. unfold Qminus. apply Qplus_le_compat; [apply Qle_refl|].
  apply Qopp_le_compat. unfold Qdiv. apply Qmult_le_compat_r.
  - by apply inject_nat_le.
  - apply Qinv_le_0_compat, Qlt_le_weak, inject_nat_pos, HL.
Qed.

Lemma one_minus_ratio_bounds (r L : nat) :
  (r <= L)%nat -> (0 < L)%nat ->
  0 <= 1 - inject_Z (Z.of_nat r) / inject_Z (Z.of_nat L) <= 1.
Proof.
  intros H HL. pose proof (inject_nat_pos L HL) as HLq.
  set (a := inject_Z (Z.of_nat r) / inject_Z (Z.of_nat L)).
  split.
  - assert (Ha : a <= 1).
    { apply Qle_shift_div_r; [done|]. rewrite Qmult_1_l. by apply inject_nat_le. }
    apply Qle_minus_iff in Ha. exact Ha.
  - assert (Ha : 0 <= a).
    { apply Qle_shift_div_l; [done|]. rewrite Qmult_0_l.
      change 0 with (inject_Z 0). rewrite <- Zle_Qle. lia. }
    apply Qopp_le_compat in Ha.
    pose proof (Qplus_le_compat 1 1 (- a) (- 0) (Qle_refl 1) Ha) as Hs.
    exact Hs.
Qed.

Lemma P_sim_bucket srd s n d :
  srd !! dist_key n = Some d -> d <> [] ->
  P_sim srd s n =
    Ok (1 - inject_Z (Z.of_nat (searchsorted_left d s)) / inject_Z (Z.of_nat (length d))).
Proof.
  intros Hd Hne. unfold P_sim, getitem. rewrite Hd. cbn.
  destruct (Nat.eqb_spec (length d) 0) as [H0|]; [|done].
  destruct d; [done|discriminate].
Qed.

Lemma searchsorted_left_le_length a v : (searchsorted_left a v <= length a)%nat.
Proof.
  unfold searchsorted_left.
  pose proof (searchsorted_loop_bounds (length a) a v 0 (length a) ltac:(lia)). lia.
Qed.

(** ** Claims on [P_sim] *)

(** C1: with the bucket of [n] present, ascending and non-empty, [P_sim]
    returns one minus the leftmost insertion rank of [s] into the bucket
    divided by the bucket's length. *)
Theorem P_sim_leftmost_rank (srd : gmap string (list Q)) (s : Q) (n : nat) (d : list Q) :
  srd !! dist_key n = Some d -> is_sorted d = true -> d <> [] ->
  P_sim srd s n =
    Ok (1 - inject_Z (Z.of_nat (leftmost_rank d s)) / inject_Z (Z.of_nat (length d))).
Proof.
  intros Hd Hs Hne. rewrite (P_sim_bucket srd s n d Hd Hne).
  by rewrite searchsorted_left_rank.
Qed.

(** The scenario of the spec: bucket [0.1;0.3;0.5;0.7;0.9], similarity 0.6,
    rank 3, p-value 1 - 3/5 = 0.4. *)
Lemma P_sim_leftmost_rank_witness :
  srd_ex !! dist_key 1 = Some null_bucket /\ is_sorted null_bucket = true /\
  null_bucket <> [] /\ leftmost_rank null_bucket 0.6 = 3%nat /\
  P_sim srd_ex 0.6 1 = Ok (1 - inject_Z 3 / inject_Z 5) /\
  1 - inject_Z 3 / inject_Z 5 == 0.4.
Proof.
  split; [vm_compute; reflexivity|].
  split; [vm_compute; reflexivity|].
  split; [discriminate|].
  split; [vm_compute; reflexivity|].
  split; [|reflexivity].
  rewrite (P_sim_leftmost_rank srd_ex 0.6 1 null_bucket);
    [vm_compute; reflexivity|vm_compute; reflexivity|vm_compute; reflexivity|discriminate].
Defined.

(** C2: the bucket key of a positive connectivity [n] is ["d"] followed by
    [floor(log2 n)] printed as a float; 8 and 9 both give ["d3.0"]. *)
Theorem dist_key_floor_log2 :
  (forall n : nat, (0 < n)%nat ->
     exists k : nat, (2 ^ k <= n < 2 ^ S k)%nat /\
                     dist_key n = "d" +:+ str_nat k +:+ ".0") /\
  dist_key 8 = "d3.0" /\ dist_key 9 = "d3.0".
Proof.
  split; [|split; reflexivity].
  intros n Hn. exists (Nat.log2 n). split.
  - apply Nat.log2_spec. lia.
  - unfold dist_key, str_floor_log2. destruct (Nat.eqb_spec n 0); [lia|done].
Qed.

(** C6: for a fixed null table and connectivity, a strictly higher
    similarity never gets a higher p-value. *)
Theorem P_sim_antitone (srd : gmap string (list Q)) (n : nat) (s1 s2 p1 p2 : Q) :
  s1 < s2 -> P_sim srd s1 n = Ok p1 -> P_sim srd s2 n = Ok p2 -> p2 <= p1.
Proof.
  intros Hlt H1 H2.
  destruct (srd !! dist_key n) as [d|] eqn:Hd;
    [|unfold P_sim, getitem in H1; rewrite Hd in H1; discriminate].
  destruct d as [|x d]; [unfold P_sim, getitem in H1; rewrite Hd in H1; discriminate|].
  rewrite (P_sim_bucket srd s1 n _ Hd) in H1 by discriminate.
  rewrite (P_sim_bucket srd s2 n _ Hd) in H2 by discriminate.
  injection H1 as <-. injection H2 as <-.
  apply one_minus_ratio_le; [|cbn; lia].
  unfold searchsorted_left. apply searchsorted_loop_mono; [apply Qlt_le_weak, Hlt|lia].
Qed.

Lemma P_sim_antitone_witness :
  0.3 < 0.6 /\ P_sim srd_ex 0.3 1 = Ok (1 - inject_Z 1 / inject_Z 5) /\
  P_sim srd_ex 0.6 1 = Ok (1 - inject_Z 3 / inject_Z 5) /\
  1 - inject_Z 3 / inject_Z 5 <= 1 - inject_Z 1 / inject_Z 5.
Proof.
  split; [vm_compute; reflexivity|].
  split; [vm_compute; reflexivity|].
  split; [vm_compute; reflexivity|].
  apply (P_sim_antitone srd_ex 1 0.3 0.6); vm_compute; reflexivity.
Defined.

(** C10: with a non-empty bucket, [P_sim] returns a value in [0, 1]; it is 0
    when the similarity exceeds every null value and 1 when it exceeds
    none. *)
Theorem P_sim_range (srd : gmap string (list Q)) (n : nat) (d : list Q) (s : Q) :
  srd !! dist_key n = Some d -> d <> [] ->
  exists p, P_sim srd s n = Ok p /\ 0 <= p <= 1 /\
    ((forall x, In x d -> x < s) -> p == 0) /\
    ((forall x, In x d -> s <= x) -> p == 1).
Proof.
  intros Hd Hne.
  assert (HL : (0 < length d)%nat) by (destruct d; [done|cbn; lia]).
  eexists. split; [exact (P_sim_bucket srd s n d Hd Hne)|].
  split; [apply one_minus_ratio_bounds; [apply searchsorted_left_le_length|done]|].
  split.
  - intros Hall.
    assert (Hr : searchsorted_left d s = length d).
    { unfold searchsorted_left. apply searchsorted_loop_all_lt; [lia|lia|].
      intros i Hi. apply Qltb_spec, Hall, nth_In. lia. }
    rewrite Hr. unfold Qdiv. rewrite Qmult_inv_r; [reflexivity|].
    intros E. pose proof (inject_nat_pos _ HL) as P. rewrite E in P.
    exact (Qlt_irrefl 0 P).
  - intros Hall.
    assert (Hr : searchsorted_left d s = 0%nat).
    { unfold searchsorted_left. apply searchsorted_loop_none_lt; [lia|].
      intros i Hi. destruct (Qltb (nth i d 0) s) eqn:E; [|done].
      apply Qltb_spec in E. exfalso.
      apply (Qlt_not_le _ _ E), Hall, nth_In. lia. }
    rewrite Hr. change (inject_Z (Z.of_nat 0)) with 0.
    unfold Qdiv. rewrite Qmult_0_l. reflexivity.
Qed.

Lemma P_sim_range_witness :
  srd_ex !! dist_key 4 = None /\ srd_ex !! dist_key 1 = Some null_bucket /\
  null_bucket <> [] /\
  exists p, P_sim srd_ex 0.95 1 = Ok p /\ 0 <= p <= 1 /\
    ((forall x, In x null_bucket -> x < 0.95) -> p == 0) /\
    ((forall x, In x null_bucket -> 0.95 <= x) -> p == 1).
Proof.
  split; [vm_compute; reflexivity|].
  split; [vm_compute; reflexivity|].
  split; [discriminate|].
  apply (P_sim_range srd_ex 1 null_bucket 0.95); [vm_compute; reflexivity|discriminate].
Defined.

(** ** [get_GO_df] *)

Lemma fdrcorrection_indep_length pvals :
  length (fdrcorrection_indep pvals) = length pvals.
Proof. unfold fdrcorrection_indep. by rewrite length_map, length_seq. Qed.

Lemma zip_with_padj (cs : list cand) (q : list Q) :
  length cs = length q ->
  map padj (zip_with with_padj cs q) = q /\
  map pval (zip_with with_padj cs q) = map c_pval cs /\
  map go_id (zip_with with_padj cs q) = map c_go_id cs.
Proof.
  revert q. induction cs as [|c cs IH]; intros [|x q] H; try discriminate; [done|].
  cbn in H |- *. destruct (IH q) as (-> & -> & ->); [lia|done].
Qed.

Lemma cand_loop_spec gw N xs cs :
  cand_loop gw N xs = Ok cs -> Forall2 (fun x c => go_candidate gw N x = Ok c) xs cs.
Proof.
  revert cs. induction xs as [|x xs IH]; intros cs H; cbn in H.
  - injection H as <-. constructor.
  - destruct (go_candidate gw N x) as [c|e] eqn:Ec; [|discriminate]. cbn in H.
    destruct (cand_loop gw N xs) as [cs'|e] eqn:Es; [|discriminate]. cbn in H.
    injection H as <-. constructor; [done|]. by apply IH.
Qed.

Lemma go_candidate_spec gw N go sim c :
  go_candidate gw N (go, sim) = Ok c ->
  exists adj, g_adj (MG_graph gw) !! go = Some adj /\ c_go_id c = go /\
    c_similarity c = sim /\ c_n_con_go c = length adj /\
    P_sim (srd gw) sim (Nat.min (length adj) N) = Ok (c_pval c).
Proof.
  unfold go_candidate, getitem. cbn.
  destruct (g_adj (MG_graph gw) !! go) as [adj|]; [|discriminate]. cbn.
  destruct (g_attr (MG_graph gw) !! go) as [ga|]; [|discriminate]. cbn.
  destruct (ga !! "name") as [des|]; [|discriminate]. cbn.
  destruct (P_sim (srd gw) sim (Nat.min (length adj) N)) as [pv|e] eqn:Ep;
    cbn; [|discriminate].
  intros H. injection H as <-. by exists adj.
Qed.

Lemma GO_table_spec gw n N full :
  GO_table gw n N = Ok full ->
  exists simdf cs, GO_simdf gw n = Ok simdf /\ cand_loop gw N simdf = Ok cs /\
    full = zip_with with_padj cs (fdrcorrection_indep (map c_pval cs)).
Proof.
  unfold GO_table. destruct (GO_simdf gw n) as [simdf|e]; [|discriminate]. cbn.
  destruct (cand_loop gw N simdf) as [cs|e] eqn:Ec; [|discriminate]. cbn.
  intros H. injection H as <-. by exists simdf, cs.
Qed.

(** C3: every row [get_GO_df] returns carries the Benjamini-Hochberg
    adjusted p-value computed over all candidates of the gene, and that
    value is strictly below [alpha_FDR]; no candidate whose adjusted p-value
    is at least [alpha_FDR] is returned. *)
Theorem get_GO_df_fdr_threshold (gw : genewalk) (geneoi : string) (N_gene_con : nat)
  (alpha_FDR : Q) (out : list go_row) :
  get_GO_df gw geneoi N_gene_con alpha_FDR = Ok out ->
  exists full, GO_table gw geneoi N_gene_con = Ok full /\
    map padj full = fdrcorrection_indep (map pval full) /\
    (forall r, r ∈ out -> padj r < alpha_FDR /\ r ∈ full) /\
    (forall r, r ∈ full -> alpha_FDR <= padj r -> r ∉ out).
Proof.
  unfold get_GO_df. destruct (GO_table gw geneoi N_gene_con) as [full|e] eqn:Ef;
    [|discriminate]. cbn. intros H. injection H as <-.
  exists full. split; [done|].
  destruct (GO_table_spec _ _ _ _ Ef) as (simdf & cs & _ & _ & ->).
  destruct (zip_with_padj cs (fdrcorrection_indep (map c_pval cs))) as (Hp & Hv & _);
    [by rewrite fdrcorrection_indep_length, length_map|].
  split; [by rewrite Hp, Hv|].
  split.
  - intros r Hr. apply list_elem_of_filter in Hr as [Hlt Hin].
    split; [by apply Qltb_spec|done].
  - intros r _ Hle Hr. apply list_elem_of_filter in Hr as [Hlt _].
    apply Qltb_spec in Hlt. exact (Qlt_not_le _ _ Hlt Hle).
Qed.

Lemma get_GO_df_fdr_threshold_witness :
  get_GO_df gw_ex "A1" 3 0.1 =
    Ok (match get_GO_df gw_ex "A1" 3 0.1 with Ok o => o | Err _ => [] end) /\
  exists full, GO_table gw_ex "A1" 3 = Ok full /\
    map padj full = fdrcorrection_indep (map pval full) /\
    (forall r, r ∈ (match get_GO_df gw_ex "A1" 3 0.1 with Ok o => o | Err _ => [] end) ->
       padj r < 0.1 /\ r ∈ full) /\
    (forall r, r ∈ full -> 0.1 <= padj r ->
       r ∉ (match get_GO_df gw_ex "A1" 3 0.1 with Ok o => o | Err _ => [] end)).
Proof.
  split; [vm_compute; reflexivity|].
  apply get_GO_df_fdr_threshold. vm_compute. reflexivity.
Defined.

Lemma elem_of_zip_with_padj (cs : list cand) (q : list Q) r :
  r ∈ zip_with with_padj cs q -> exists c x, c ∈ cs /\ r = with_padj c x.
Proof.
  revert q. induction cs as [|c cs IH]; intros [|x q] Hr; cbn in Hr;
    try by apply elem_of_nil in Hr.
  apply elem_of_cons in Hr as [->|Hr].
  - exists c, x. split; [apply elem_of_cons; by left|done].
  - destruct (IH q Hr) as (c' & x' & Hc & ->). exists c', x'.
    split; [apply elem_of_cons; by right|done].
Qed.

Lemma Forall2_elem_of_r {A B} (P : A -> B -> Prop) xs ys y :
  Forall2 P xs ys -> y ∈ ys -> exists x, x ∈ xs /\ P x y.
Proof.
  induction 1 as [|x y' xs ys Hxy Hall IH]; intros Hy; [by apply elem_of_nil in Hy|].
  apply elem_of_cons in Hy as [->|Hy].
  - exists x. split; [apply elem_of_cons; by left|done].
  - destruct (IH Hy) as (x' & Hx & HP). exists x'.
    split; [apply elem_of_cons; by right|done].
Qed.

Lemma cand_loop_ids gw N xs cs :
  Forall2 (fun x c => go_candidate gw N x = Ok c) xs cs -> map c_go_id cs = map fst xs.
Proof.
  induction 1 as [|[go sim] c xs cs Hc _ IH]; [done|].
  destruct (go_candidate_spec _ _ _ _ _ Hc) as (adj & _ & Hid & _).
  cbn. by rewrite Hid, IH.
Qed.

Lemma GO_table_rows gw n N full r :
  GO_table gw n N = Ok full -> r ∈ full ->
  exists adj, g_adj (MG_graph gw) !! go_id r = Some adj /\ n_con_go r = length adj /\
    P_sim (srd gw) (similarity r) (Nat.min (length adj) N) = Ok (pval r).
Proof.
  intros Ht Hr. destruct (GO_table_spec _ _ _ _ Ht) as (simdf & cs & _ & Hc & ->).
  destruct (elem_of_zip_with_padj _ _ _ Hr) as (c & x & Hin & ->).
  destruct (Forall2_elem_of_r _ _ _ _ (cand_loop_spec _ _ _ _ Hc) Hin)
    as ([go sim] & _ & Hgo).
  destruct (go_candidate_spec _ _ _ _ _ Hgo) as (adj & Hadj & Hid & Hsim & Hn & Hp).
  exists adj. cbn. rewrite Hid, Hsim, Hn. done.
Qed.

Lemma process_node_ok gw alpha n rows :
  process_node gw alpha n = Ok rows ->
  rows = [] \/ exists adj h' GOdf, g_adj (MG_graph gw) !! n = Some adj /\
    get_GO_df gw n (length adj) alpha = Ok GOdf /\
    rows = map (mk_report_row h' n (length adj)) GOdf.
Proof.
  unfold process_node, getitem.
  destruct (g_attr (MG_graph gw) !! n) as [attrs|]; [|discriminate]. cbn.
  destruct (attrs !! "HGNC") as [h|]; [|discriminate]. cbn.
  destruct (decide (h ∈ hgncid gw)) as [Hin|Hnin]; [|intros H; injection H as <-; by left].
  destruct (g_adj (MG_graph gw) !! n) as [adj|]; [|discriminate]. cbn.
  destruct (get_GO_df gw n (length adj) alpha) as [GOdf|e] eqn:Eg; [|discriminate]. cbn.
  destruct (g_attr (gw_tr_graph gw) !! n) as [ta|]; [|discriminate]. cbn.
  destruct (ta !! "HGNC") as [h'|]; [|discriminate]. cbn.
  intros H. injection H as <-. right. by exists adj, h', GOdf.
Qed.

Lemma process_node_err gw alpha n e :
  process_node gw alpha n = Err e ->
  e = KeyError \/ exists adj, g_adj (MG_graph gw) !! n = Some adj /\
    get_GO_df gw n (length adj) alpha = Err e.
Proof.
  unfold process_node, getitem.
  destruct (g_attr (MG_graph gw) !! n) as [attrs|]; cbn; [|intros H; injection H; by left].
  destruct (attrs !! "HGNC") as [h|]; cbn; [|intros H; injection H; by left].
  destruct (decide (h ∈ hgncid gw)) as [Hin|Hnin]; [|discriminate].
  destruct (g_adj (MG_graph gw) !! n) as [adj|]; cbn; [|intros H; injection H; by left].
  destruct (get_GO_df gw n (length adj) alpha) as [GOdf|e'] eqn:Eg; cbn;
    [|intros H; injection H as ->; right; by exists adj].
  destruct (g_attr (gw_tr_graph gw) !! n) as [ta|]; cbn; [|intros H; injection H; by left].
  destruct (ta !! "HGNC") as [h'|]; cbn; [discriminate|intros H; injection H; by left].
Qed.

(** C5: every candidate GO term of a gene gets the p-value [P_sim] gives
    at connectivity [min(GO-term connectivity, gene connectivity)], each
    connectivity being the number of neighbours of the node; the rows of
    the report carry these values. *)
Theorem get_GO_df_connectivity (gw : genewalk) (n : string) (nbg : list string)
  (full : list go_row) :
  g_adj (MG_graph gw) !! n = Some nbg ->
  GO_table gw n (length nbg) = Ok full ->
  (exists simdf, GO_simdf gw n = Ok simdf /\ map go_id full = map fst simdf) /\
  (forall r, r ∈ full -> exists adj, g_adj (MG_graph gw) !! go_id r = Some adj /\
     n_con_go r = length adj /\
     P_sim (srd gw) (similarity r) (Nat.min (length adj) (length nbg)) = Ok (pval r)) /\
  (forall alpha rows, process_node gw alpha n = Ok rows -> forall r, r ∈ rows ->
     r_n_con_gene r = length nbg /\
     exists adj, g_adj (MG_graph gw) !! r_go_id r = Some adj /\
       r_n_con_go r = length adj /\
       P_sim (srd gw) (r_similarity r) (Nat.min (length adj) (length nbg)) = Ok (r_pval r)).
Proof.
  intros Hn Ht. split; [|split].
  - destruct (GO_table_spec _ _ _ _ Ht) as (simdf & cs & Hs & Hc & ->).
    exists simdf. split; [done|].
    destruct (zip_with_padj cs (fdrcorrection_indep (map c_pval cs))) as (_ & _ & ->);
      [by rewrite fdrcorrection_indep_length, length_map|].
    exact (cand_loop_ids _ _ _ _ (cand_loop_spec _ _ _ _ Hc)).
  - intros r Hr. exact (GO_table_rows _ _ _ _ _ Ht Hr).
  - intros alpha rows Hp r Hr.
    destruct (process_node_ok _ _ _ _ Hp) as [->|(adj & h' & GOdf & Hadj & Hg & ->)];
      [by apply elem_of_nil in Hr|].
    rewrite Hn in Hadj. injection Hadj as <-.
    apply list_elem_of_In, in_map_iff in Hr as (g & <- & Hg').
    apply list_elem_of_In in Hg'.
    unfold get_GO_df in Hg. rewrite Ht in Hg. cbn in Hg. injection Hg as <-.
    apply list_elem_of_filter in Hg' as [_ Hg'].
    split; [done|]. exact (GO_table_rows _ _ _ _ _ Ht Hg').
Qed.

Lemma get_GO_df_connectivity_witness :
  g_adj (MG_graph gw_ex) !! "A1" = Some ["T1"; "T2"; "T3"] /\
  GO_table gw_ex "A1" 3 =
    Ok (match GO_table gw_ex "A1" 3 with Ok o => o | Err _ => [] end) /\
  (exists simdf, GO_simdf gw_ex "A1" = Ok simdf /\
     map go_id (match GO_table gw_ex "A1" 3 with Ok o => o | Err _ => [] end) = map fst simdf).
Proof.
  split; [vm_compute; reflexivity|]. split; [vm_compute; reflexivity|].
  apply (get_GO_df_connectivity gw_ex "A1" ["T1"; "T2"; "T3"]);
    vm_compute; reflexivity.
Defined.

Lemma filter_none {A} (P : A -> Prop) `{forall x, Decision (P x)} (l : list A) :
  (forall x, x ∈ l -> ~ P x) -> filter P l = [].
Proof.
  induction l as [|x l IH]; intros Hl; [done|].
  rewrite filter_cons, decide_False; [|apply Hl, elem_of_cons; by left].
  apply IH. intros y Hy. apply Hl, elem_of_cons. by right.
Qed.

(** C9: a gene that has a vector but no GO neighbour gets an empty table
    from [get_GO_df], without error, and adds no row to the report: the
    loop of [generate_output] goes on with the next node as if the gene
    were absent. *)
Theorem get_GO_df_no_GO_neighbour (gw : genewalk) (n : string) (nbg : list string)
  (ranked : list (string * Q)) :
  g_adj (MG_graph gw) !! n = Some nbg ->
  nv_most_similar gw n = Some ranked ->
  (forall m, m ∈ nbg -> m ∉ GO_nodes (MG_graph gw)) ->
  (forall N_gene_con alpha_FDR, get_GO_df gw n N_gene_con alpha_FDR = Ok []) /\
  (forall alpha_FDR rest outdf,
     gen_loop gw alpha_FDR (n :: rest) outdf = gen_loop gw alpha_FDR rest outdf).
Proof.
  intros Hn Hr Hgo.
  assert (Hdf : forall N alpha, get_GO_df gw n N alpha = Ok []).
  { intros N alpha. unfold get_GO_df, GO_table, GO_simdf, getitem.
    rewrite Hn. cbn. rewrite Hr. cbn.
    rewrite (filter_none (fun m => m ∈ GO_nodes (MG_graph gw)) nbg Hgo).
    rewrite (filter_none (fun x : string * Q => x.1 ∈ []) ranked);
      [done|intros x _ Hx; by apply elem_of_nil in Hx]. }
  split; [exact Hdf|].
  intros alpha rest outdf. cbn [gen_loop].
  destruct (process_node gw alpha n) as [rows|e] eqn:Ep.
  - destruct (process_node_ok _ _ _ _ Ep) as [->|(adj & h' & GOdf & Hadj & Hg & ->)].
    + by rewrite app_nil_r.
    + rewrite Hdf in Hg. injection Hg as <-. cbn. by rewrite app_nil_r.
  - destruct (process_node_err _ _ _ _ Ep) as [->|(adj & Hadj & Hg)]; [done|].
    by rewrite Hdf in Hg.
Qed.

Lemma get_GO_df_no_GO_neighbour_witness :
  g_adj (MG_graph gw_ex) !! "A3" = Some ["A2"] /\
  nv_most_similar gw_ex "A3" = Some [("A2", 0.2)] /\
  (forall m, m ∈ ["A2"] -> m ∉ GO_nodes (MG_graph gw_ex)) /\
  (forall N_gene_con alpha_FDR, get_GO_df gw_ex "A3" N_gene_con alpha_FDR = Ok []) /\
  (forall alpha_FDR rest outdf,
     gen_loop gw_ex alpha_FDR ("A3" :: rest) outdf = gen_loop gw_ex alpha_FDR rest outdf).
Proof.
  assert (Hgo : forall m, m ∈ ["A2"] -> m ∉ GO_nodes (MG_graph gw_ex)).
  { intros m Hm. apply list_elem_of_singleton in Hm as ->.
    apply (bool_decide_unpack _). vm_compute. exact I. }
  split; [vm_compute; reflexivity|]. split; [vm_compute; reflexivity|].
  split; [exact Hgo|].
  apply (get_GO_df_no_GO_neighbour gw_ex "A3" ["A2"] [("A2", 0.2)]);
    [vm_compute; reflexivity|vm_compute; reflexivity|exact Hgo].
Defined.

(** ** The final sort *)

Lemma code_le_total c1 c2 : code_le c1 c2 = true \/ code_le c2 c1 = true.
Proof.
  destruct c1 as [i|], c2 as [j|]; cbn; auto.
  destruct (Nat.leb_spec i j), (Nat.leb_spec j i); auto; lia.
Qed.

Lemma code_le_trans c1 c2 c3 :
  code_le c1 c2 = true -> code_le c2 c3 = true -> code_le c1 c3 = true.
Proof.
  destruct c1 as [i|], c2 as [j|], c3 as [k|]; cbn; try done.
  intros H1 H2. apply Nat.leb_le in H1, H2. apply Nat.leb_le. lia.
Qed.

Lemma padj_pval_le_iff r1 r2 :
  padj_pval_le r1 r2 = true <->
  r_padj r1 < r_padj r2 \/ (r_padj r1 == r_padj r2 /\ r_pval r1 <= r_pval r2).
Proof.
  unfold padj_pval_le. rewrite orb_true_iff, andb_true_iff, Qltb_spec, Qeq_bool_iff,
    Qle_bool_iff. done.
Qed.

Lemma padj_pval_le_total r1 r2 :
  padj_pval_le r1 r2 = true \/ padj_pval_le r2 r1 = true.
Proof.
  rewrite !padj_pval_le_iff.
  destruct (Q_dec (r_padj r1) (r_padj r2)) as [[H|H]|H]; auto.
  destruct (Qlt_le_dec (r_pval r1) (r_pval r2)) as [H'|H'].
  - left. right. split; [done|by apply Qlt_le_weak].
  - right. right. split; [by apply Qeq_sym|done].
Qed.

Lemma padj_pval_le_trans r1 r2 r3 :
  padj_pval_le r1 r2 = true -> padj_pval_le r2 r3 = true -> padj_pval_le r1 r3 = true.
Proof.
  rewrite !padj_pval_le_iff.
  intros [H1|[E1 H1]] [H2|[E2 H2]].
  - left. eapply Qlt_trans; eauto.
  - left. by rewrite <- E2.
  - left. by rewrite E1.
  - right. split; [eapply Qeq_trans; eauto|eapply Qle_trans; eauto].
Qed.

Lemma row_le_total cats r1 r2 : row_le cats r1 r2 = false -> row_le cats r2 r1 = true.
Proof.
  unfold row_le. intros H. apply orb_false_iff in H as [H1 H2].
  apply negb_false_iff in H1. rewrite H1. cbn.
  destruct (code_le (cat_code cats (r_hgnc r1)) (cat_code cats (r_hgnc r2))); [|done].
  cbn in *. destruct (padj_pval_le_total r1 r2) as [E|E]; [congruence|done].
Qed.

Lemma row_le_trans cats r1 r2 r3 :
  row_le cats r1 r2 = true -> row_le cats r2 r3 = true -> row_le cats r1 r3 = true.
Proof.
  unfold row_le.
  set (c1 := cat_code cats (r_hgnc r1)). set (c2 := cat_code cats (r_hgnc r2)).
  set (c3 := cat_code cats (r_hgnc r3)).
  intros H1 H2.
  destruct (code_le c3 c1) eqn:E31; [|done]. cbn.
  destruct (code_le c2 c1) eqn:E21.
  - cbn in H1. apply andb_true_iff in H1 as [E12 P12].
    destruct (code_le c3 c2) eqn:E32.
    + cbn in H2. apply andb_true_iff in H2 as [E23 P23].
      rewrite (code_le_trans _ _ _ E12 E23). cbn.
      exact (padj_pval_le_trans _ _ _ P12 P23).
    + exfalso. pose proof (code_le_trans _ _ _ E31 E12). congruence.
  - exfalso.
    assert (E23 : code_le c2 c3 = true).
    { destruct (code_le c3 c2) eqn:E32; cbn in H2.
      - by apply andb_true_iff in H2 as [? _].
      - destruct (code_le_total c2 c3); congruence. }
    pose proof (code_le_trans _ _ _ E23 E31). congruence.
Qed.

Lemma insert_row_perm cats r l : Permutation (insert_row cats r l) (r :: l).
Proof.
  induction l as [|y l IH]; cbn; [done|].
  destruct (row_le cats r y); [done|].
  etransitivity; [apply perm_skip, IH|apply perm_swap].
Qed.

Lemma insert_row_sorted cats r l :
  StronglySorted (fun x y => row_le cats x y = true) l ->
  StronglySorted (fun x y => row_le cats x y = true) (insert_row cats r l).
Proof.
  induction l as [|y l IH]; intros Hs; cbn.
  - repeat constructor.
  - apply StronglySorted_inv in Hs as [Hs Hy].
    destruct (row_le cats r y) eqn:Ery.
    + constructor; [by constructor|]. constructor; [done|].
      eapply Forall_impl; [exact Hy|]. intros x Hx. eapply row_le_trans; eauto.
    + constructor; [by apply IH|].
      apply Forall_forall. intros x Hx. apply list_elem_of_In in Hx.
      apply (Permutation_in _ (insert_row_perm cats r l)) in Hx.
      destruct Hx as [<-|Hx]; [by apply row_le_total|].
      apply (proj1 (Forall_forall _ _) Hy). by apply list_elem_of_In.
Qed.

Lemma sort_values_spec cats rows :
  Permutation rows (sort_values cats rows) /\
  StronglySorted (fun x y => row_le cats x y = true) (sort_values cats rows).
Proof.
  induction rows as [|r rows [IHp IHs]]; cbn; [split; constructor|].
  split.
  - etransitivity; [apply perm_skip, IHp|]. symmetry. apply insert_row_perm.
  - by apply insert_row_sorted.
Qed.

Lemma StronglySorted_lookup {A} (R : A -> A -> Prop) (l : list A) i j x y :
  StronglySorted R l -> (i < j)%nat -> l !! i = Some x -> l !! j = Some y -> R x y.
Proof.
  intros Hs. revert i j. induction Hs as [|a l Hs IH Ha]; intros i j Hij Hi Hj; [done|].
  destruct i as [|i], j as [|j]; try lia; cbn in Hi, Hj.
  - injection Hi as <-. apply (proj1 (Forall_forall _ _) Ha).
    by eapply list_elem_of_lookup_2.
  - apply (IH i j); [lia|done|done].
Qed.

Lemma cat_code_lookup cats h p : cat_code cats h = Some p -> cats !! p = Some h.
Proof.
  revert p. induction cats as [|c cats IH]; intros p; cbn; [done|].
  destruct (String.eqb_spec c h) as [->|]; [intros H; by injection H as <-|].
  destruct (cat_code cats h) as [q|] eqn:E; cbn; [|done].
  intros H. injection H as <-. by apply IH.
Qed.

Lemma cat_code_of_lookup cats h p :
  NoDup cats -> cats !! p = Some h -> cat_code cats h = Some p.
Proof.
  intros Hnd Hp.
  assert (Hex : exists q, cat_code cats h = Some q).
  { clear Hnd. revert p Hp. induction cats as [|c cats IH]; intros p Hp; [done|].
    cbn. destruct (String.eqb_spec c h); [by eexists|].
    destruct p as [|p]; cbn in Hp; [congruence|].
    destruct (IH p Hp) as [q ->]. by eexists. }
  destruct Hex as [q Hq]. rewrite Hq. f_equal.
  eapply NoDup_lookup; [exact Hnd| |exact Hp]. by apply cat_code_lookup.
Qed.

(** C4: the report of [generate_output] holds the accumulated rows,
    reordered so that rows of one gene come by ascending adjusted p-value,
    ties by ascending raw p-value, and rows of different genes follow the
    order of the gene-of-interest list. *)
Theorem generate_output_sorted (gw : genewalk) (alpha_FDR : Q) (out : list report_row) :
  generate_output gw alpha_FDR = Ok out ->
  (exists outdf, gen_loop gw alpha_FDR (g_nodes (MG_graph gw)) [] = Ok outdf /\
                 Permutation outdf out) /\
  (forall i j r1 r2, (i < j)%nat -> out !! i = Some r1 -> out !! j = Some r2 ->
     (r_hgnc r1 = r_hgnc r2 ->
        r_padj r1 < r_padj r2 \/ (r_padj r1 == r_padj r2 /\ r_pval r1 <= r_pval r2)) /\
     (forall p1 p2, hgncid gw !! p1 = Some (r_hgnc r1) ->
        hgncid gw !! p2 = Some (r_hgnc r2) -> r_hgnc r1 <> r_hgnc r2 -> (p1 < p2)%nat)).
Proof.
  unfold generate_output, sort_report.
  destruct (gen_loop gw alpha_FDR (g_nodes (MG_graph gw)) []) as [outdf|e]; [|discriminate].
  cbn. destruct (decide (NoDup (hgncid gw))) as [Hnd|]; [|discriminate].
  intros H. injection H as <-.
  destruct (sort_values_spec (hgncid gw) outdf) as [Hperm Hsorted].
  split; [by exists outdf|].
  intros i j r1 r2 Hij Hi Hj.
  pose proof (StronglySorted_lookup _ _ _ _ _ _ Hsorted Hij Hi Hj) as Hle.
  unfold row_le in Hle.
  split.
  - intros Heq. rewrite Heq in Hle.
    destruct (code_le (cat_code (hgncid gw) (r_hgnc r2)) (cat_code (hgncid gw) (r_hgnc r2)))
      eqn:E; cbn in Hle.
    + by apply padj_pval_le_iff.
    + destruct (code_le_total (cat_code (hgncid gw) (r_hgnc r2))
                              (cat_code (hgncid gw) (r_hgnc r2))); congruence.
  - intros p1 p2 Hp1 Hp2 Hne.
    rewrite (cat_code_of_lookup _ _ _ Hnd Hp1), (cat_code_of_lookup _ _ _ Hnd Hp2) in Hle.
    cbn in Hle. destruct (Nat.leb_spec p2 p1), (Nat.leb_spec p1 p2); cbn in Hle;
      try lia; try discriminate.
    assert (p1 = p2) as -> by lia. rewrite Hp1 in Hp2. congruence.
Qed.

Lemma generate_output_sorted_witness :
  generate_output gw_ex 0.5 =
    Ok (match generate_output gw_ex 0.5 with Ok o => o | Err _ => [] end) /\
  length (match generate_output gw_ex 0.5 with Ok o => o | Err _ => [] end) = 4%nat /\
  (exists outdf, gen_loop gw_ex 0.5 (g_nodes (MG_graph gw_ex)) [] = Ok outdf /\
     Permutation outdf (match generate_output gw_ex 0.5 with Ok o => o | Err _ => [] end)).
Proof.
  split; [vm_compute; reflexivity|]. split; [vm_compute; reflexivity|].
  apply (generate_output_sorted gw_ex 0.5). vm_compute. reflexivity.
Defined.

(** ** Errors *)

Lemma cand_loop_app_err gw N pre x post cs e :
  cand_loop gw N pre = Ok cs -> go_candidate gw N x = Err e ->
  cand_loop gw N (pre ++ x :: post) = Err e.
Proof.
  revert cs. induction pre as [|y pre IH]; intros cs Hpre Hx; cbn.
  - by rewrite Hx.
  - cbn in Hpre. destruct (go_candidate gw N y) as [c|e']; [|discriminate]. cbn in *.
    destruct (cand_loop gw N pre) as [cs'|e'] eqn:E; [|discriminate].
    by rewrite (IH cs').
Qed.

(** C7 (as the code has it): a missing bucket makes [P_sim] raise
    [KeyError], with no fallback bucket and no default p-value; the error
    leaves [get_GO_df], and the [except KeyError] of [generate_output]
    catches it: the gene adds no row and the loop goes on. *)
Theorem missing_bucket_skips_gene (gw : genewalk) (alpha_FDR : Q) (n : string)
  (nbg : list string) (pre post : list (string * Q)) (go : string) (sim : Q)
  (cs : list cand) (adj : list string) (ga : gmap string string) (des : string) :
  g_adj (MG_graph gw) !! n = Some nbg ->
  GO_simdf gw n = Ok (pre ++ (go, sim) :: post) ->
  cand_loop gw (length nbg) pre = Ok cs ->
  g_adj (MG_graph gw) !! go = Some adj ->
  g_attr (MG_graph gw) !! go = Some ga -> ga !! "name" = Some des ->
  srd gw !! dist_key (Nat.min (length adj) (length nbg)) = None ->
  P_sim (srd gw) sim (Nat.min (length adj) (length nbg)) = Err KeyError /\
  get_GO_df gw n (length nbg) alpha_FDR = Err KeyError /\
  (forall rest outdf,
     gen_loop gw alpha_FDR (n :: rest) outdf = gen_loop gw alpha_FDR rest outdf).
Proof.
  intros Hn Hs Hpre Hadj Hga Hdes Hkey.
  assert (Hp : P_sim (srd gw) sim (Nat.min (length adj) (length nbg)) = Err KeyError).
  { unfold P_sim, getitem. by rewrite Hkey. }
  assert (Hdf : get_GO_df gw n (length nbg) alpha_FDR = Err KeyError).
  { assert (Hc : go_candidate gw (length nbg) (go, sim) = Err KeyError).
    { unfold go_candidate, getitem. rewrite Hadj. cbn. rewrite Hga. cbn.
      rewrite Hdes. cbn. by rewrite Hp. }
    unfold get_GO_df, GO_table. rewrite Hs. cbn.
    by rewrite (cand_loop_app_err _ _ _ _ _ _ _ Hpre Hc). }
  split; [done|]. split; [done|].
  intros rest outdf. cbn [gen_loop].
  destruct (process_node gw alpha_FDR n) as [rows|e] eqn:Ep.
  - destruct (process_node_ok _ _ _ _ Ep) as [->|(adj' & h' & GOdf & Hadj' & Hg & _)].
    + by rewrite app_nil_r.
    + rewrite Hn in Hadj'. injection Hadj' as <-. congruence.
  - destruct (process_node_err _ _ _ _ Ep) as [->|(adj' & Hadj' & Hg)]; [done|].
    rewrite Hn in Hadj'. injection Hadj' as <-. rewrite Hdf in Hg.
    injection Hg as <-. done.
Qed.

Lemma missing_bucket_skips_gene_witness :
  g_adj (MG_graph gw_c7) !! "A1" = Some ["T1"; "T2"; "T3"] /\
  GO_simdf gw_c7 "A1" = Ok ([("T1", 0.95)] ++ ("T3", 0.92) :: [("T2", 0.8)]) /\
  srd gw_c7 !! dist_key (Nat.min 1 3) = None /\
  P_sim (srd gw_c7) 0.92 (Nat.min 1 3) = Err KeyError /\
  get_GO_df gw_c7 "A1" 3 0.5 = Err KeyError /\
  (forall rest outdf, gen_loop gw_c7 0.5 ("A1" :: rest) outdf = gen_loop gw_c7 0.5 rest outdf).
Proof.
  split; [vm_compute; reflexivity|]. split; [vm_compute; reflexivity|].
  split; [vm_compute; reflexivity|].
  apply (missing_bucket_skips_gene gw_c7 0.5 "A1" ["T1"; "T2"; "T3"] [("T1", 0.95)]
           [("T2", 0.8)] "T3" 0.92
           (match cand_loop gw_c7 3 [("T1", 0.95)] with Ok c => c | Err _ => [] end)
           ["A1"] (list_to_map [("GO", "GO:3"); ("name", "term three")]) "term three");
    vm_compute; reflexivity.
Defined.

(** C7 as stated fails: with the bucket "d0.0" missing, [P_sim] raises for
    the GO term T3 of gene G1 (node A1), yet [generate_output] does not
    fail: it returns the report, holding the row of gene G2. *)
Lemma missing_bucket_not_fatal :
  P_sim (srd gw_c7) 0.92 1 = Err KeyError /\
  process_node gw_c7 0.5 "A1" = Err KeyError /\
  generate_output gw_c7 0.5 =
    Ok (match generate_output gw_c7 0.5 with Ok o => o | Err _ => [] end) /\
  map r_hgnc (match generate_output gw_c7 0.5 with Ok o => o | Err _ => [] end) = ["G2"].
Proof.
  split; [vm_compute; reflexivity|]. split; [vm_compute; reflexivity|].
  split; vm_compute; reflexivity.
Qed.

(** C8 (as the code has it): the [try] around each node catches only
    [KeyError].  When no node raises anything else, the loop collects the
    rows of every node that succeeds and skips the others; the first node
    that raises another exception aborts the loop with it. *)
Theorem gen_loop_catches_KeyError_only (gw : genewalk) (alpha_FDR : Q) :
  (forall ns outdf,
     (forall n, n ∈ ns -> forall e, process_node gw alpha_FDR n = Err e -> e = KeyError) ->
     gen_loop gw alpha_FDR ns outdf =
       Ok (outdf ++ concat (map (fun n => match process_node gw alpha_FDR n with
                                          | Ok rows => rows | Err _ => [] end) ns))) /\
  (forall pre n post outdf e,
     (forall m, m ∈ pre -> forall e', process_node gw alpha_FDR m = Err e' -> e' = KeyError) ->
     process_node gw alpha_FDR n = Err e -> e <> KeyError ->
     gen_loop gw alpha_FDR (pre ++ n :: post) outdf = Err e).
Proof.
  split.
  - intros ns. induction ns as [|n ns IH]; intros outdf Hall; cbn; [by rewrite app_nil_r|].
    assert (Hns : forall m, m ∈ ns -> forall e,
               process_node gw alpha_FDR m = Err e -> e = KeyError).
    { intros m Hm. apply Hall, elem_of_cons. by right. }
    destruct (process_node gw alpha_FDR n) as [rows|e] eqn:Ep.
    + rewrite IH by done. by rewrite app_assoc.
    + rewrite (Hall n ltac:(apply elem_of_cons; by left) e Ep) in Ep |- *.
      by rewrite IH.
  - intros pre. induction pre as [|m pre IH]; intros n post outdf e Hpre Hn He; cbn.
    + rewrite Hn. by destruct e.
    + assert (Hpre' : forall m', m' ∈ pre -> forall e',
                 process_node gw alpha_FDR m' = Err e' -> e' = KeyError).
      { intros m' Hm. apply Hpre, elem_of_cons. by right. }
      destruct (process_node gw alpha_FDR m) as [rows|e'] eqn:Ep.
      * by apply IH.
      * rewrite (Hpre m ltac:(apply elem_of_cons; by left) e' Ep). by apply IH.
Qed.

(** C8 as stated fails: the empty bucket "d1.0" makes [P_sim] divide by
    zero while gene G2 (node A2) is processed; [ZeroDivisionError] is not
    caught and the whole run fails. *)
Lemma empty_bucket_aborts_run :
  process_node gw_c8 0.5 "A2" = Err ZeroDivisionError /\
  generate_output gw_c8 0.5 = Err ZeroDivisionError.
Proof. split; vm_compute; reflexivity. Qed.

(** * Further properties *)

(** ** Benjamini-Hochberg *)

(** [np.minimum.accumulate]: the prefix minima. *)
Lemma min_acc_length m l : length (min_acc m l) = length l.
Proof. revert m. induction l as [|x l IH]; intros m; cbn; [done|by rewrite IH]. Qed.

Lemma min_acc_le_start m l j : (j < length l)%nat -> nth j (min_acc m l) 0 <= m.
Proof.
  revert m j. induction l as [|x l IH]; intros m j Hj; cbn in *; [lia|].
  destruct j as [|j]; [apply Q.le_min_l|].
  eapply Qle_trans; [apply IH; lia|apply Q.le_min_l].
Qed.

Lemma min_acc_le m l i j :
  (i <= j < length l)%nat -> nth j (min_acc m l) 0 <= nth i l 0.
Proof.
  revert m i j. induction l as [|x l IH]; intros m i j Hij; cbn in *; [lia|].
  destruct i as [|i], j as [|j]; try lia.
  - apply Q.le_min_r.
  - eapply Qle_trans; [apply min_acc_le_start; lia|apply Q.le_min_r].
  - apply IH. lia.
Qed.

Lemma min_acc_glb m l j b :
  (j < length l)%nat -> b <= m -> (forall i, (i <= j)%nat -> b <= nth i l 0) ->
  b <= nth j (min_acc m l) 0.
Proof.
  revert m j. induction l as [|x l IH]; intros m j Hj Hm Hb; cbn in *; [lia|].
  assert (Hx : b <= Qmin m x) by (apply Q.min_glb; [done|apply (Hb 0%nat); lia]).
  destruct j as [|j]; [done|].
  apply IH; [lia|done|]. intros i Hi. apply (Hb (S i)). lia.
Qed.

Lemma min_acc_antitone m l j j' :
  (j <= j' < length l)%nat -> nth j' (min_acc m l) 0 <= nth j (min_acc m l) 0.
Proof.
  revert m j j'. induction l as [|x l IH]; intros m j j' Hj; cbn in *; [lia|].
  destruct j as [|j], j' as [|j']; try lia.
  - apply Qle_refl.
  - apply min_acc_le_start. lia.
  - apply IH. lia.
Qed.

Lemma minimum_accumulate_length l : length (minimum_accumulate l) = length l.
Proof. destruct l; cbn; [done|by rewrite min_acc_length]. Qed.

Lemma minimum_accumulate_le l i j :
  (i <= j < length l)%nat -> nth j (minimum_accumulate l) 0 <= nth i l 0.
Proof.
  destruct l as [|x l]; cbn; [lia|]. intros Hij.
  destruct i as [|i], j as [|j]; try lia.
  - apply Qle_refl.
  - apply min_acc_le_start. lia.
  - apply min_acc_le. lia.
Qed.

Lemma minimum_accumulate_glb l j b :
  (j < length l)%nat -> (forall i, (i <= j)%nat -> b <= nth i l 0) ->
  b <= nth j (minimum_accumulate l) 0.
Proof.
  destruct l as [|x l]; cbn; [lia|]. intros Hj Hb.
  destruct j as [|j]; [apply (Hb 0%nat); lia|].
  apply min_acc_glb; [lia|apply (Hb 0%nat); lia|].
  intros i Hi. apply (Hb (S i)). lia.
Qed.

Lemma minimum_accumulate_antitone l j j' :
  (j <= j' < length l)%nat ->
  nth j' (minimum_accumulate l) 0 <= nth j (minimum_accumulate l) 0.
Proof.
  destruct l as [|x l]; cbn; [lia|]. intros Hj.
  destruct j as [|j], j' as [|j']; try lia.
  - apply Qle_refl.
  - apply min_acc_le_start. lia.
  - apply min_acc_antitone. lia.
Qed.

(** The reversed accumulation of the code, [pvals_corrected_raw[::-1]]
    accumulated and reversed back: the suffix minima. *)
Lemma suffix_min_length l : length (rev (minimum_accumulate (rev l))) = length l.
Proof. by rewrite length_rev, minimum_accumulate_length, length_rev. Qed.

Lemma suffix_min_le l k m :
  (k <= m < length l)%nat -> nth k (rev (minimum_accumulate (rev l))) 0 <= nth m l 0.
Proof.
  intros Hkm.
  rewrite rev_nth by (rewrite minimum_accumulate_length, length_rev; lia).
  rewrite minimum_accumulate_length, length_rev.
  assert (E : nth m l 0 = nth (length l - S m) (rev l) 0).
  { rewrite rev_nth by lia. f_equal. lia. }
  rewrite E. apply minimum_accumulate_le. rewrite length_rev. lia.
Qed.

Lemma suffix_min_glb l k b :
  (k < length l)%nat -> (forall m, (k <= m < length l)%nat -> b <= nth m l 0) ->
  b <= nth k (rev (minimum_accumulate (rev l))) 0.
Proof.
  intros Hk Hb.
  rewrite rev_nth by (rewrite minimum_accumulate_length, length_rev; lia).
  rewrite minimum_accumulate_length, length_rev.
  apply minimum_accumulate_glb; [rewrite length_rev; lia|].
  intros i Hi. rewrite rev_nth by lia. apply Hb. lia.
Qed.

Lemma suffix_min_mono l k k' :
  (k <= k' < length l)%nat ->
  nth k (rev (minimum_accumulate (rev l))) 0 <= nth k' (rev (minimum_accumulate (rev l))) 0.
Proof.
  intros Hk.
  rewrite !rev_nth by (rewrite minimum_accumulate_length, length_rev; lia).
  rewrite minimum_accumulate_length, length_rev.
  apply minimum_accumulate_antitone. rewrite length_rev. lia.
Qed.

(** [np.argsort]: a permutation of the indices, ascending by p-value. *)
Lemma insert_index_perm p i l : Permutation (insert_index p i l) (i :: l).
Proof.
  induction l as [|j l IH]; cbn; [done|].
  destruct (Qle_bool _ _); [done|].
  etransitivity; [apply perm_skip, IH|apply perm_swap].
Qed.

Lemma insert_index_sorted p i l :
  StronglySorted (fun a b => nth a p 0 <= nth b p 0) l ->
  StronglySorted (fun a b => nth a p 0 <= nth b p 0) (insert_index p i l).
Proof.
  induction l as [|j l IH]; intros Hs; cbn.
  - repeat constructor.
  - apply StronglySorted_inv in Hs as [Hs Hj].
    destruct (Qle_bool (nth i p 0) (nth j p 0)) eqn:E.
    + apply Qle_bool_iff in E.
      constructor; [by constructor|]. constructor; [done|].
      eapply Forall_impl; [exact Hj|]. intros x Hx. eapply Qle_trans; eauto.
    + assert (E' : nth j p 0 <= nth i p 0).
      { apply Qlt_le_weak, Qnot_le_lt. intros H. apply Qle_bool_iff in H. congruence. }
      constructor; [by apply IH|].
      apply Forall_forall. intros x Hx. apply list_elem_of_In in Hx.
      apply (Permutation_in _ (insert_index_perm p i l)) in Hx.
      destruct Hx as [<-|Hx]; [done|].
      apply (proj1 (Forall_forall _ _) Hj). by apply list_elem_of_In.
Qed.

Lemma argsort_perm p : Permutation (argsort p) (seq 0 (length p)).
Proof.
  unfold argsort. induction (seq 0 (length p)) as [|i l IH]; cbn; [done|].
  etransitivity; [apply insert_index_perm|]. by apply perm_skip.
Qed.

Lemma argsort_sorted p :
  StronglySorted (fun a b => nth a p 0 <= nth b p 0) (argsort p).
Proof.
  unfold argsort. induction (seq 0 (length p)) as [|i l IH]; cbn; [constructor|].
  by apply insert_index_sorted.
Qed.

Lemma index_in_spec i l :
  In i l -> (index_in i l < length l)%nat /\ nth (index_in i l) l 0%nat = i.
Proof.
  induction l as [|j l IH]; intros Hi; cbn in *; [done|].
  destruct (Nat.eqb_spec i j) as [->|Hne]; [split; [lia|done]|].
  destruct Hi as [->|Hi]; [done|]. destruct (IH Hi). split; [lia|done].
Qed.

Lemma StronglySorted_nth {A} (R : A -> A -> Prop) (l : list A) d i j :
  StronglySorted R l -> (i < j < length l)%nat -> R (nth i l d) (nth j l d).
Proof.
  intros Hs Hij.
  assert (Hi : is_Some (l !! i)) by (apply lookup_lt_is_Some_2; lia).
  assert (Hj : is_Some (l !! j)) by (apply lookup_lt_is_Some_2; lia).
  destruct Hi as [x Hx], Hj as [y Hy].
  rewrite (nth_lookup_Some l i d x Hx), (nth_lookup_Some l j d y Hy).
  apply (StronglySorted_lookup R l i j x y Hs); [lia|done|done].
Qed.

Lemma nth_zip_with_Qdiv (l1 l2 : list Q) m :
  (m < length l1)%nat -> (m < length l2)%nat ->
  nth m (zip_with Qdiv l1 l2) 0 = nth m l1 0 / nth m l2 0.
Proof.
  revert l2 m. induction l1 as [|x l1 IH]; intros [|y l2] m H1 H2; cbn in *; try lia.
  destruct m as [|m]; [done|]. apply IH; lia.
Qed.

Lemma nth_ecdf n m :
  (m < n)%nat -> nth m (ecdf n) 0 = inject_Z (Z.of_nat (S m)) / inject_Z (Z.of_nat n).
Proof.
  intros Hm. unfold ecdf.
  rewrite (nth_indep _ _ (inject_Z (Z.of_nat (S 0%nat)) / inject_Z (Z.of_nat n)))
    by (rewrite length_map, length_seq; lia).
  rewrite (map_nth (fun k => inject_Z (Z.of_nat (S k)) / inject_Z (Z.of_nat n))).
  by rewrite seq_nth.
Qed.

(** [(pvals_corrected_raw)[m] = pvals_sorted[m] / ((m+1)/n)] *)
Lemma fdr_raw_nth p m :
  (m < length p)%nat ->
  nth m (zip_with Qdiv (map (fun j => nth j p 0) (argsort p))
                       (ecdf (length (map (fun j => nth j p 0) (argsort p))))) 0 =
  nth m (map (fun j => nth j p 0) (argsort p)) 0 /
    (inject_Z (Z.of_nat (S m)) / inject_Z (Z.of_nat (length p))).
Proof.
  intros Hm.
  assert (Hl : length (map (fun j => nth j p 0) (argsort p)) = length p).
  { rewrite length_map. rewrite (Permutation_length (argsort_perm p)). apply length_seq. }
  rewrite Hl. rewrite nth_zip_with_Qdiv; [|lia|unfold ecdf; rewrite length_map, length_seq; lia].
  by rewrite nth_ecdf.
Qed.

(** The corrected value of the [i]-th p-value, read off the sorted order:
    it sits at the position [k] of [i] in [argsort], and is the clipped
    suffix minimum of the raw corrections at [k]. *)
Lemma fdr_nth p i :
  (i < length p)%nat ->
  exists k, (k < length p)%nat /\
    nth k (map (fun j => nth j p 0) (argsort p)) 0 = nth i p 0 /\
    nth i (fdrcorrection_indep p) 0 =
      (fun q => if Qltb 1 q then 1 else q)
        (nth k (rev (minimum_accumulate (rev
           (zip_with Qdiv (map (fun j => nth j p 0) (argsort p))
                          (ecdf (length (map (fun j => nth j p 0) (argsort p)))))))) 0).
Proof.
  intros Hi.
  assert (Hl : length (argsort p) = length p).
  { rewrite (Permutation_length (argsort_perm p)). apply length_seq. }
  assert (Hin : In i (argsort p)).
  { apply (Permutation_in _ (Permutation_sym (argsort_perm p))). apply in_seq. lia. }
  destruct (index_in_spec i (argsort p) Hin) as [Hk Hnth].
  exists (index_in i (argsort p)). split; [lia|]. split.
  - rewrite (nth_indep _ _ (nth 0%nat p 0)) by (rewrite length_map; lia).
    rewrite (map_nth (fun j => nth j p 0)). by rewrite Hnth.
  - unfold fdrcorrection_indep. cbv zeta.
    set (raw := zip_with Qdiv _ _).
    set (clip := fun q => if Qltb 1 q then 1 else q).
    assert (Hraw : length raw = length p).
    { subst raw. rewrite length_zip_with, length_map. unfold ecdf.
      rewrite ?length_map, ?length_seq. lia. }
    rewrite (nth_indep _ _ (nth (index_in 0%nat (argsort p))
                               (map clip (rev (minimum_accumulate (rev raw)))) 0))
      by (rewrite length_map, length_seq; lia).
    rewrite (map_nth (fun j => nth (index_in j (argsort p))
                                (map clip (rev (minimum_accumulate (rev raw)))) 0)).
    rewrite seq_nth by lia. cbn [Nat.add].
    rewrite (nth_indep _ _ (clip 0)) by (rewrite length_map, suffix_min_length; lia).
    by rewrite map_nth.
Qed.

Lemma Qdiv_ge_self a d : 0 <= a -> 0 < d -> d <= 1 -> a <= a / d.
Proof.
  intros Ha Hd Hd1. apply Qle_shift_div_l; [done|].
  rewrite <- (Qmult_1_r a) at 2. rewrite (Qmult_comm a d), (Qmult_comm a 1).
  by apply Qmult_le_compat_r.
Qed.

Lemma Qdiv_nonneg a d : 0 <= a -> 0 < d -> 0 <= a / d.
Proof. intros Ha Hd. apply Qle_shift_div_l; [done|]. by rewrite Qmult_0_l. Qed.

Lemma Qdiv_antitone a d1 d2 : 0 <= a -> 0 < d1 -> d1 <= d2 -> a / d2 <= a / d1.
Proof.
  intros Ha Hd1 Hd12. assert (Hd2 : 0 < d2) by (eapply Qlt_le_trans; eauto).
  apply Qle_shift_div_l; [done|].
  apply (Qle_trans _ (a / d2 * d2)).
  - rewrite (Qmult_comm (a / d2) d1), (Qmult_comm (a / d2) d2).
    apply Qmult_le_compat_r; [done|]. by apply Qdiv_nonneg.
  - rewrite (Qmult_comm (a / d2) d2), Qmult_div_r; [apply Qle_refl|].
    intros E. rewrite E in Hd2. discriminate.
Qed.

(** The factor [(m+1)/n] of the ecdf. *)
Lemma ecdf_factor_bounds m n :
  (m < n)%nat ->
  0 < inject_Z (Z.of_nat (S m)) / inject_Z (Z.of_nat n) <= 1.
Proof.
  intros H. pose proof (inject_nat_pos n ltac:(lia)) as Hn. split.
  - apply Qlt_shift_div_l; [done|]. rewrite Qmult_0_l. apply inject_nat_pos. lia.
  - apply Qle_shift_div_r; [done|]. rewrite Qmult_1_l. apply inject_nat_le. lia.
Qed.

Lemma ecdf_factor_mono m m' n :
  (m <= m')%nat -> (0 < n)%nat ->
  inject_Z (Z.of_nat (S m)) / inject_Z (Z.of_nat n) <=
  inject_Z (Z.of_nat (S m')) / inject_Z (Z.of_nat n).
Proof.
  intros H Hn. unfold Qdiv. apply Qmult_le_compat_r.
  - apply inject_nat_le. lia.
  - apply Qinv_le_0_compat, Qlt_le_weak, inject_nat_pos, Hn.
Qed.

(** [pvals[pvals>1] = 1]: the clipping. *)
Lemma clip_le_1 q : (if Qltb 1 q then 1 else q) <= 1.
Proof.
  destruct (Qltb 1 q) eqn:E; [apply Qle_refl|].
  apply Qnot_lt_le. intros H. apply Qltb_spec in H. congruence.
Qed.

Lemma clip_glb b q : b <= 1 -> b <= q -> b <= (if Qltb 1 q then 1 else q).
Proof. intros H1 H2. by destruct (Qltb 1 q). Qed.

Lemma clip_mono q q' : q <= q' -> (if Qltb 1 q then 1 else q) <= (if Qltb 1 q' then 1 else q').
Proof.
  intros H. destruct (Qltb 1 q') eqn:E'; [apply clip_le_1|].
  destruct (Qltb 1 q) eqn:E; [|done].
  exfalso. apply Qltb_spec in E.
  assert (H' : 1 < q') by (eapply Qlt_le_trans; eauto).
  apply Qltb_spec in H'. congruence.
Qed.

Lemma nth_Forall {A} (P : A -> Prop) (l : list A) d i :
  Forall P l -> P d -> P (nth i l d).
Proof.
  intros Hl Hd. revert i. induction Hl as [|x l Hx _ IH]; intros [|i]; cbn; auto.
Qed.

Lemma fdr_sorted_nonneg p m :
  Forall (fun q => 0 <= q) p -> 0 <= nth m (map (fun j => nth j p 0) (argsort p)) 0.
Proof.
  intros Hp. apply nth_Forall; [|apply Qle_refl].
  apply Forall_forall. intros q Hq. apply list_elem_of_In, in_map_iff in Hq as (j & <- & _).
  apply nth_Forall; [done|apply Qle_refl].
Qed.

Lemma nth_map_argsort p m :
  (m < length p)%nat ->
  nth m (map (fun j => nth j p 0) (argsort p)) 0 = nth (nth m (argsort p) 0%nat) p 0.
Proof.
  intros Hm.
  assert (Hl : length (argsort p) = length p).
  { rewrite (Permutation_length (argsort_perm p)). apply length_seq. }
  rewrite (nth_indep _ _ (nth 0%nat p 0)) by (rewrite length_map; lia).
  apply (map_nth (fun j => nth j p 0)).
Qed.

Lemma fdr_sorted_nth p a b :
  (a <= b < length p)%nat ->
  nth a (map (fun j => nth j p 0) (argsort p)) 0 <=
  nth b (map (fun j => nth j p 0) (argsort p)) 0.
Proof.
  intros Hab. destruct (decide (a = b)) as [->|Hne]; [apply Qle_refl|].
  assert (Hl : length (argsort p) = length p).
  { rewrite (Permutation_length (argsort_perm p)). apply length_seq. }
  rewrite !nth_map_argsort by lia.
  apply (StronglySorted_nth (fun a b => nth a p 0 <= nth b p 0)); [apply argsort_sorted|lia].
Qed.

Lemma fdr_raw_length p :
  length (zip_with Qdiv (map (fun j => nth j p 0) (argsort p))
                        (ecdf (length (map (fun j => nth j p 0) (argsort p))))) = length p.
Proof.
  rewrite length_zip_with. unfold ecdf. rewrite ?length_map, ?length_seq.
  rewrite (Permutation_length (argsort_perm p)), length_seq. lia.
Qed.

Lemma Qdiv_le_num a b d : a <= b -> 0 < d -> a / d <= b / d.
Proof.
  intros H Hd. unfold Qdiv. apply Qmult_le_compat_r; [done|].
  by apply Qinv_le_0_compat, Qlt_le_weak.
Qed.

Lemma fdr_pval_le_padj (pvals : list Q) (i : nat) :
  Forall (fun q => 0 <= q <= 1) pvals -> (i < length pvals)%nat ->
  nth i pvals 0 <= nth i (fdrcorrection_indep pvals) 0.
Proof.
  intros Hp Hi.
  assert (Hnn : Forall (fun q => 0 <= q) pvals) by (eapply Forall_impl; [exact Hp|]; intros q []; done).
  destruct (fdr_nth pvals i Hi) as (k & Hk & Hps & ->).
  apply clip_glb.
  - apply (nth_Forall (fun q => 0 <= q <= 1)); [done|]. split; [apply Qle_refl|discriminate].
  - apply suffix_min_glb; [rewrite fdr_raw_length; lia|].
    intros m Hm. rewrite fdr_raw_length in Hm. rewrite fdr_raw_nth by lia. rewrite <- Hps.
    apply (Qle_trans _ (nth m (map (fun j => nth j pvals 0) (argsort pvals)) 0));
      [apply fdr_sorted_nth; lia|].
    destruct (ecdf_factor_bounds m (length pvals) ltac:(lia)) as [H0 H1].
    apply Qdiv_ge_self; [by apply fdr_sorted_nonneg|done|done].
Qed.

Lemma fdr_padj_bounds (pvals : list Q) :
  Forall (fun q => 0 <= q) pvals ->
  Forall (fun q => 0 <= q <= 1) (fdrcorrection_indep pvals).
Proof.
  intros Hp. apply Forall_forall. intros q Hq.
  apply list_elem_of_lookup_1 in Hq as [i Hq].
  pose proof (lookup_lt_Some _ _ _ Hq) as Hi. rewrite fdrcorrection_indep_length in Hi.
  rewrite <- (nth_lookup_Some _ _ 0 _ Hq).
  destruct (fdr_nth pvals i Hi) as (k & Hk & _ & ->).
  split; [|apply clip_le_1].
  apply clip_glb; [discriminate|].
  apply suffix_min_glb; [rewrite fdr_raw_length; lia|].
  intros m Hm. rewrite fdr_raw_length in Hm. rewrite fdr_raw_nth by lia.
  destruct (ecdf_factor_bounds m (length pvals) ltac:(lia)) as [H0 _].
  by apply Qdiv_nonneg; [apply fdr_sorted_nonneg|].
Qed.

Lemma fdr_padj_mono (pvals : list Q) (i j : nat) :
  Forall (fun q => 0 <= q) pvals ->
  (i < length pvals)%nat -> (j < length pvals)%nat ->
  nth i pvals 0 <= nth j pvals 0 ->
  nth i (fdrcorrection_indep pvals) 0 <= nth j (fdrcorrection_indep pvals) 0.
Proof.
  intros Hp Hi Hj Hij.
  destruct (fdr_nth pvals i Hi) as (ki & Hki & Hpi & ->).
  destruct (fdr_nth pvals j Hj) as (kj & Hkj & Hpj & ->).
  apply clip_mono.
  destruct (le_lt_dec ki kj) as [Hk|Hk].
  - apply suffix_min_mono. rewrite fdr_raw_length. lia.
  - apply suffix_min_glb; [rewrite fdr_raw_length; lia|].
    intros m Hm. rewrite fdr_raw_length in Hm.
    destruct (le_lt_dec ki m) as [Hm'|Hm'].
    + apply suffix_min_le. rewrite fdr_raw_length. lia.
    + eapply Qle_trans; [apply (suffix_min_le _ ki ki); rewrite fdr_raw_length; lia|].
      rewrite !fdr_raw_nth by lia.
      destruct (ecdf_factor_bounds m (length pvals) ltac:(lia)) as [Hm0 _].
      apply (Qle_trans _ (nth ki (map (fun j => nth j pvals 0) (argsort pvals)) 0 /
                          (inject_Z (Z.of_nat (S m)) / inject_Z (Z.of_nat (length pvals))))).
      * apply Qdiv_antitone; [apply fdr_sorted_nonneg, Hp|exact Hm0|].
        apply ecdf_factor_mono; lia.
      * apply Qdiv_le_num; [|exact Hm0].
        rewrite Hpi. rewrite <- Hpj in Hij.
        eapply Qle_trans; [exact Hij|]. apply fdr_sorted_nth. lia.
Qed.

(** ** [get_GO_df] and the report *)

Lemma P_sim_Ok_bounds srd s n p : P_sim srd s n = Ok p -> 0 <= p <= 1.
Proof.
  unfold P_sim, getitem. destruct (srd !! dist_key n) as [d|]; cbn; [|discriminate].
  destruct (Nat.eqb_spec (length d) 0); [discriminate|].
  intros H. injection H as <-.
  apply one_minus_ratio_bounds; [apply searchsorted_left_le_length|lia].
Qed.

Lemma GO_simdf_spec gw n simdf :
  GO_simdf gw n = Ok simdf ->
  exists nbrs ranked, g_adj (MG_graph gw) !! n = Some nbrs /\
    nv_most_similar gw n = Some ranked /\
    simdf = filter (fun x => x.1 ∈ filter (fun m => m ∈ GO_nodes (MG_graph gw)) nbrs) ranked.
Proof.
  unfold GO_simdf, getitem.
  destruct (g_adj (MG_graph gw) !! n) as [nbrs|]; cbn; [|discriminate].
  destruct (nv_most_similar gw n) as [ranked|]; cbn; [|discriminate].
  intros H. injection H as <-. by exists nbrs, ranked.
Qed.

Lemma GO_table_row_source gw n N full r :
  GO_table gw n N = Ok full -> r ∈ full ->
  exists simdf x, GO_simdf gw n = Ok simdf /\ x ∈ simdf /\
    go_id r = x.1 /\ similarity r = x.2.
Proof.
  intros Ht Hr. destruct (GO_table_spec _ _ _ _ Ht) as (simdf & cs & Hs & Hc & ->).
  destruct (elem_of_zip_with_padj _ _ _ Hr) as (c & q & Hin & ->).
  destruct (Forall2_elem_of_r _ _ _ _ (cand_loop_spec _ _ _ _ Hc) Hin)
    as ([go sim] & Hx & Hgo).
  destruct (go_candidate_spec _ _ _ _ _ Hgo) as (adj & _ & Hid & Hsim & _).
  exists simdf, (go, sim). cbn. by rewrite Hid, Hsim.
Qed.

Lemma GO_nodes_attr G m :
  m ∈ GO_nodes G ->
  m ∈ g_nodes G /\ exists a v, g_attr G !! m = Some a /\ a !! "GO" = Some v.
Proof.
  unfold GO_nodes. intros H. apply list_elem_of_filter in H as [Hm Hn].
  split; [done|].
  destruct (g_attr G !! m) as [a|]; [|discriminate].
  destruct (a !! "GO") as [v|] eqn:E; [|discriminate]. by exists a, v.
Qed.

(** Every row of [get_GO_df] is a GO term among the neighbours of the gene. *)
Lemma get_GO_df_row_GO gw n N alpha out r :
  get_GO_df gw n N alpha = Ok out -> r ∈ out ->
  exists nbrs, g_adj (MG_graph gw) !! n = Some nbrs /\ go_id r ∈ nbrs /\
    go_id r ∈ GO_nodes (MG_graph gw).
Proof.
  unfold get_GO_df. destruct (GO_table gw n N) as [full|e] eqn:Ef; [|discriminate].
  cbn. intros H Hr. injection H as <-. apply list_elem_of_filter in Hr as [_ Hr].
  destruct (GO_table_row_source _ _ _ _ _ Ef Hr) as (simdf & x & Hs & Hx & Hid & _).
  destruct (GO_simdf_spec _ _ _ Hs) as (nbrs & ranked & Hn & _ & ->).
  apply list_elem_of_filter in Hx as [Hx _]. apply list_elem_of_filter in Hx as [Hgo Hx].
  exists nbrs. rewrite Hid. done.
Qed.

(** The p-values of [get_GO_df]'s rows: raw below adjusted below [alpha_FDR],
    both in [0,1]. *)
Lemma get_GO_df_row_pvals gw n N alpha out r :
  get_GO_df gw n N alpha = Ok out -> r ∈ out ->
  0 <= pval r /\ pval r <= padj r /\ padj r < alpha /\ padj r <= 1.
Proof.
  unfold get_GO_df. destruct (GO_table gw n N) as [full|e] eqn:Ef; [|discriminate].
  cbn. intros H Hr. injection H as <-. apply list_elem_of_filter in Hr as [Hlt Hr].
  apply Qltb_spec in Hlt.
  destruct (GO_table_spec _ _ _ _ Ef) as (simdf & cs & _ & Hc & ->).
  assert (Hp : Forall (fun q => 0 <= q <= 1) (map c_pval cs)).
  { apply Forall_forall. intros q Hq.
    apply list_elem_of_In, in_map_iff in Hq as (c & <- & Hc').
    apply list_elem_of_In in Hc'.
    destruct (Forall2_elem_of_r _ _ _ _ (cand_loop_spec _ _ _ _ Hc) Hc')
      as ([go sim] & _ & Hgo).
    destruct (go_candidate_spec _ _ _ _ _ Hgo) as (adj & _ & _ & _ & _ & HP).
    exact (P_sim_Ok_bounds _ _ _ _ HP). }
  apply elem_of_lookup_zip_with_1 in Hr as (i & c & x & -> & Hci & Hxi).
  cbn in Hlt |- *.
  assert (Hi : (i < length (map c_pval cs))%nat)
    by (rewrite length_map; exact (lookup_lt_Some _ _ _ Hci)).
  assert (Hpv : nth i (map c_pval cs) 0 = c_pval c).
  { rewrite (nth_indep _ _ (c_pval c)) by done. rewrite map_nth.
    by rewrite (nth_lookup_Some _ _ _ _ Hci). }
  assert (Hq : nth i (fdrcorrection_indep (map c_pval cs)) 0 = x)
    by exact (nth_lookup_Some _ _ _ _ Hxi).
  pose proof (fdr_pval_le_padj (map c_pval cs) i Hp Hi) as Hle.
  rewrite Hpv, Hq in Hle.
  assert (Hx : 0 <= x <= 1).
  { assert (Hnn : Forall (fun q => 0 <= q) (map c_pval cs))
      by (eapply Forall_impl; [exact Hp|]; intros q []; done).
    apply (proj1 (Forall_forall _ _) (fdr_padj_bounds _ Hnn)).
    by eapply list_elem_of_lookup_2. }
  assert (Hc0 : 0 <= c_pval c) by (rewrite <- Hpv; apply nth_Forall; [eapply Forall_impl; [exact Hp|]; intros q []; done|apply Qle_refl]).
  repeat split; try done; tauto.
Qed.

Lemma StronglySorted_map {A B} (R : B -> B -> Prop) (f : A -> B) (l : list A) :
  StronglySorted R (map f l) -> StronglySorted (fun x y => R (f x) (f y)) l.
Proof.
  induction l as [|x l IH]; cbn; intros Hs; [constructor|].
  apply StronglySorted_inv in Hs as [Hs Hx]. constructor; [by apply IH|].
  apply Forall_forall. intros y Hy.
  apply (proj1 (Forall_forall _ _) Hx). apply list_elem_of_In, in_map, list_elem_of_In, Hy.
Qed.

Lemma StronglySorted_map_2 {A B} (R : B -> B -> Prop) (f : A -> B) (l : list A) :
  StronglySorted (fun x y => R (f x) (f y)) l -> StronglySorted R (map f l).
Proof.
  induction l as [|x l IH]; cbn; intros Hs; [constructor|].
  apply StronglySorted_inv in Hs as [Hs Hx]. constructor; [by apply IH|].
  apply Forall_forall. intros y Hy.
  apply list_elem_of_In, in_map_iff in Hy as (z & <- & Hz).
  apply (proj1 (Forall_forall _ _) Hx). by apply list_elem_of_In.
Qed.

Lemma StronglySorted_filter {A} (R : A -> A -> Prop) (P : A -> Prop)
  `{forall x, Decision (P x)} (l : list A) :
  StronglySorted R l -> StronglySorted R (filter P l).
Proof.
  induction l as [|x l IH]; intros Hs; [constructor|].
  apply StronglySorted_inv in Hs as [Hs Hx]. rewrite filter_cons.
  destruct (decide (P x)); [|by apply IH].
  constructor; [by apply IH|].
  apply Forall_forall. intros y Hy. apply list_elem_of_filter in Hy as [_ Hy].
  by apply (proj1 (Forall_forall _ _) Hx).
Qed.

Lemma zip_with_padj_similarity (cs : list cand) (q : list Q) :
  length cs = length q -> map similarity (zip_with with_padj cs q) = map c_similarity cs.
Proof.
  revert q. induction cs as [|c cs IH]; intros [|x q] H; try discriminate; [done|].
  cbn in H |- *. rewrite (IH q); [done|lia].
Qed.

Lemma cand_loop_similarities gw N xs cs :
  Forall2 (fun x c => go_candidate gw N x = Ok c) xs cs ->
  map c_similarity cs = map snd xs.
Proof.
  induction 1 as [|[go sim] c xs cs Hc _ IH]; [done|].
  destruct (go_candidate_spec _ _ _ _ _ Hc) as (adj & _ & _ & Hsim & _).
  cbn. by rewrite Hsim, IH.
Qed.

Lemma gen_loop_source gw alpha ns outdf res :
  gen_loop gw alpha ns outdf = Ok res -> forall r, r ∈ res ->
  r ∈ outdf \/ exists n rows, n ∈ ns /\ process_node gw alpha n = Ok rows /\ r ∈ rows.
Proof.
  revert outdf. induction ns as [|n ns IH]; intros outdf H r Hr; cbn in H.
  - injection H as <-. by left.
  - destruct (process_node gw alpha n) as [rows|e] eqn:Ep.
    + destruct (IH _ H r Hr) as [Hin|(m & rows' & Hm & Hp & Hr')].
      * apply elem_of_app in Hin as [Hin|Hin]; [by left|].
        right. exists n, rows. split; [apply elem_of_cons; by left|done].
      * right. exists m, rows'. split; [apply elem_of_cons; by right|done].
    + destruct e; try discriminate.
      destruct (IH _ H r Hr) as [Hin|(m & rows' & Hm & Hp & Hr')]; [by left|].
      right. exists m, rows'. split; [apply elem_of_cons; by right|done].
Qed.

Lemma gen_loop_complete gw alpha ns outdf res :
  gen_loop gw alpha ns outdf = Ok res ->
  (forall r, r ∈ outdf -> r ∈ res) /\
  (forall n rows r, n ∈ ns -> process_node gw alpha n = Ok rows -> r ∈ rows -> r ∈ res).
Proof.
  revert outdf. induction ns as [|n ns IH]; intros outdf H; cbn in H.
  - injection H as <-. split; [done|]. intros n rows r Hn. by apply elem_of_nil in Hn.
  - destruct (process_node gw alpha n) as [rows|e] eqn:Ep.
    + destruct (IH _ H) as [H1 H2]. split.
      * intros r Hr. apply H1, elem_of_app. by left.
      * intros m rows' r Hm Hp Hr. apply elem_of_cons in Hm as [->|Hm].
        -- rewrite Ep in Hp. injection Hp as <-. apply H1, elem_of_app. by right.
        -- by apply (H2 m rows').
    + destruct e; try discriminate. destruct (IH _ H) as [H1 H2]. split; [done|].
      intros m rows' r Hm Hp Hr. apply elem_of_cons in Hm as [->|Hm]; [congruence|].
      by apply (H2 m rows').
Qed.

Lemma generate_output_spec gw alpha out :
  generate_output gw alpha = Ok out ->
  NoDup (hgncid gw) /\ exists outdf,
    gen_loop gw alpha (g_nodes (MG_graph gw)) [] = Ok outdf /\ Permutation outdf out.
Proof.
  unfold generate_output, sort_report.
  destruct (gen_loop gw alpha (g_nodes (MG_graph gw)) []) as [outdf|e]; [|discriminate].
  cbn. destruct (decide (NoDup (hgncid gw))) as [Hnd|]; [|discriminate].
  intros H. injection H as <-. split; [done|]. exists outdf. split; [done|].
  apply sort_values_spec.
Qed.

Lemma process_node_rows gw alpha n rows r :
  process_node gw alpha n = Ok rows -> r ∈ rows ->
  exists attrs h adj GOdf tr_attrs h' g,
    g_attr (MG_graph gw) !! n = Some attrs /\ attrs !! "HGNC" = Some h /\
    h ∈ hgncid gw /\ g_adj (MG_graph gw) !! n = Some adj /\
    get_GO_df gw n (length adj) alpha = Ok GOdf /\
    g_attr (gw_tr_graph gw) !! n = Some tr_attrs /\ tr_attrs !! "HGNC" = Some h' /\
    g ∈ GOdf /\ r = mk_report_row h' n (length adj) g.
Proof.
  unfold process_node, getitem.
  destruct (g_attr (MG_graph gw) !! n) as [attrs|] eqn:Ea; [|discriminate]. cbn.
  destruct (attrs !! "HGNC") as [h|] eqn:Eh; [|discriminate]. cbn.
  destruct (decide (h ∈ hgncid gw)) as [Hin|Hnin];
    [|intros H; injection H as <-; intros Hr; by apply elem_of_nil in Hr].
  destruct (g_adj (MG_graph gw) !! n) as [adj|] eqn:Ead; [|discriminate]. cbn.
  destruct (get_GO_df gw n (length adj) alpha) as [GOdf|e] eqn:Eg; [|discriminate]. cbn.
  destruct (g_attr (gw_tr_graph gw) !! n) as [ta|] eqn:Eta; [|discriminate]. cbn.
  destruct (ta !! "HGNC") as [h'|] eqn:Eh'; [|discriminate]. cbn.
  intros H Hr. injection H as <-.
  apply list_elem_of_In, in_map_iff in Hr as (g & <- & Hg). apply list_elem_of_In in Hg.
  exists attrs, h, adj, GOdf, ta, h', g. repeat split; done.
Qed.

(** What a row of the report is made of. *)
Lemma report_row_props gw alpha out r :
  generate_output gw alpha = Ok out -> r ∈ out ->
  0 <= r_pval r /\ r_pval r <= r_padj r /\ r_padj r < alpha /\
  r_hugo r ∈ g_nodes (MG_graph gw) /\
  (exists attrs h nbg, g_attr (MG_graph gw) !! r_hugo r = Some attrs /\
     attrs !! "HGNC" = Some h /\ h ∈ hgncid gw /\
     g_adj (MG_graph gw) !! r_hugo r = Some nbg /\ r_n_con_gene r = length nbg /\
     r_go_id r ∈ nbg /\ r_go_id r ∈ GO_nodes (MG_graph gw)) /\
  (exists tr_attrs, g_attr (gw_tr_graph gw) !! r_hugo r = Some tr_attrs /\
     tr_attrs !! "HGNC" = Some (r_hgnc r)).
Proof.
  intros Ho Hr. destruct (generate_output_spec _ _ _ Ho) as (_ & outdf & Hl & Hp).
  apply list_elem_of_In in Hr. apply (Permutation_in _ (Permutation_sym Hp)) in Hr.
  apply list_elem_of_In in Hr.
  destruct (gen_loop_source _ _ _ _ _ Hl r Hr) as [Hr'|(n & rows & Hn & Hpn & Hrr)];
    [by apply elem_of_nil in Hr'|].
  destruct (process_node_rows _ _ _ _ _ Hpn Hrr)
    as (attrs & h & adj & GOdf & ta & h' & g & Ha & Hh & Hin & Hadj & Hg & Hta & Hh' & Hgin & ->).
  destruct (get_GO_df_row_pvals _ _ _ _ _ _ Hg Hgin) as (H0 & H1 & H2 & _).
  destruct (get_GO_df_row_GO _ _ _ _ _ _ Hg Hgin) as (nbrs & Hn' & Hnb & Hgo).
  rewrite Hadj in Hn'. injection Hn' as <-.
  cbn. split; [done|]. split; [done|]. split; [done|]. split; [done|]. split.
  - exists attrs, h, adj. done.
  - exists ta. done.
Qed.

(** The sort keeps the relative order of rows its keys do not tell apart. *)
Lemma insert_row_filter cats r x l :
  filter (fun y => row_le cats y r && row_le cats r y = true) (insert_row cats x l) =
  if decide (row_le cats x r && row_le cats r x = true)
  then x :: filter (fun y => row_le cats y r && row_le cats r y = true) l
  else filter (fun y => row_le cats y r && row_le cats r y = true) l.
Proof.
  induction l as [|y l IH]; cbn [insert_row].
  - by rewrite filter_cons, filter_nil.
  - destruct (row_le cats x y) eqn:Exy; [by rewrite filter_cons|].
    rewrite filter_cons, IH.
    destruct (decide (row_le cats x r && row_le cats r x = true)) as [Hx|Hx].
    + rewrite (filter_cons _ y), decide_False; [rewrite decide_False; [done|]|].
      * intros Hy. apply andb_true_iff in Hx as [Hx1 _], Hy as [_ Hy2].
        pose proof (row_le_trans _ _ _ _ Hx1 Hy2). congruence.
      * intros Hy. apply andb_true_iff in Hx as [Hx1 _], Hy as [_ Hy2].
        pose proof (row_le_trans _ _ _ _ Hx1 Hy2). congruence.
    + by rewrite (filter_cons _ y).
Qed.

Lemma sort_values_filter cats r l :
  filter (fun y => row_le cats y r && row_le cats r y = true) (sort_values cats l) =
  filter (fun y => row_le cats y r && row_le cats r y = true) l.
Proof.
  induction l as [|x l IH]; [done|]. cbn [sort_values fold_right].
  change (fold_right (insert_row cats) [] l) with (sort_values cats l).
  rewrite insert_row_filter, IH, filter_cons. done.
Qed.

(** ** The bucket key, read back *)

Lemma dec_digits_app f n s acc :
  dec_digits f n (s +:+ acc) = dec_digits f n s +:+ acc.
Proof.
  revert n s. induction f as [|f IH]; intros n s; cbn [dec_digits]; [done|].
  destruct (Nat.ltb n 10); [done|].
  exact (IH (n / 10)%nat (String _ s)).
Qed.

Lemma dec_digits_fuel f1 f2 n acc :
  (n < f1)%nat -> (n < f2)%nat -> dec_digits f1 n acc = dec_digits f2 n acc.
Proof.
  revert f2 n acc. induction f1 as [|f1 IH]; intros [|f2] n acc H1 H2; try lia; cbn [dec_digits].
  destruct (Nat.ltb_spec n 10); [done|].
  assert (n / 10 < n)%nat by (apply Nat.div_lt; lia).
  apply IH; lia.
Qed.

Lemma list_ascii_of_string_app s1 s2 :
  String.list_ascii_of_string (s1 +:+ s2) = String.list_ascii_of_string s1 ++ String.list_ascii_of_string s2.
Proof.
  induction s1 as [|c s1 IH]; [done|].
  change (String c s1 +:+ s2) with (String c (s1 +:+ s2)).
  change (String.list_ascii_of_string (String c (s1 +:+ s2))) with (c :: String.list_ascii_of_string (s1 +:+ s2)).
  by rewrite IH.
Qed.

(** [str(n)] ends in the digit [n mod 10], after the digits of [n / 10]. *)
Lemma str_nat_last n :
  String.list_ascii_of_string (str_nat n) =
  (if Nat.ltb n 10 then [] else String.list_ascii_of_string (str_nat (n / 10))) ++
  [ascii_of_nat (48 + n mod 10)].
Proof.
  unfold str_nat at 1. cbn [dec_digits]. destruct (Nat.ltb_spec n 10); [done|].
  change (String (ascii_of_nat (48 + n mod 10)) EmptyString)
    with (EmptyString +:+ String (ascii_of_nat (48 + n mod 10)) EmptyString).
  rewrite dec_digits_app, list_ascii_of_string_app. f_equal.
  unfold str_nat. f_equal. apply dec_digits_fuel; [|lia].
  apply Nat.div_lt; lia.
Qed.

Lemma str_nat_not_empty n : String.list_ascii_of_string (str_nat n) <> [].
Proof. rewrite str_nat_last. intros H. by apply app_eq_nil in H as [_ ?]. Qed.

Lemma string_cons_app c s : String c EmptyString +:+ s = String c s.
Proof. reflexivity. Qed.

Lemma list_ascii_of_string_inj s1 s2 :
  String.list_ascii_of_string s1 = String.list_ascii_of_string s2 -> s1 = s2.
Proof.
  intros H. rewrite <- (String.string_of_list_ascii_of_string s1), <- (String.string_of_list_ascii_of_string s2).
  by rewrite H.
Qed.

Lemma str_nat_inj a b : str_nat a = str_nat b -> a = b.
Proof.
  revert b. induction a as [a IH] using (well_founded_induction lt_wf). intros b H.
  apply (f_equal String.list_ascii_of_string) in H. rewrite (str_nat_last a), (str_nat_last b) in H.
  apply app_inj_tail in H as [Hpre Hd].
  apply (f_equal nat_of_ascii) in Hd.
  rewrite !nat_ascii_embedding in Hd
    by (pose proof (Nat.mod_upper_bound a 10); pose proof (Nat.mod_upper_bound b 10); lia).
  assert (Hm : a mod 10 = b mod 10) by lia.
  destruct (Nat.ltb_spec a 10), (Nat.ltb_spec b 10).
  - rewrite !Nat.mod_small in Hm by lia. done.
  - exfalso. symmetry in Hpre. by apply str_nat_not_empty in Hpre.
  - exfalso. by apply str_nat_not_empty in Hpre.
  - apply list_ascii_of_string_inj in Hpre.
    assert (a / 10 < a)%nat by (apply Nat.div_lt; lia).
    apply IH in Hpre; [|done].
    rewrite (Nat.div_mod_eq a 10), (Nat.div_mod_eq b 10). lia.
Qed.

(** Two connectivities share a null bucket exactly when both are 0, or
    both are positive with the same [floor(log2)]. *)
Lemma dist_key_eq_iff n m :
  dist_key n = dist_key m <->
  (n = 0 /\ m = 0)%nat \/ (0 < n /\ 0 < m /\ Nat.log2 n = Nat.log2 m)%nat.
Proof.
  unfold dist_key, str_floor_log2. split.
  - destruct (Nat.eqb_spec n 0) as [Hn|Hn], (Nat.eqb_spec m 0) as [Hm|Hm]; intros H.
    + by left.
    + exfalso. rewrite !string_cons_app in H. injection H as H.
      apply (f_equal String.list_ascii_of_string) in H. rewrite list_ascii_of_string_app in H.
      change (String.list_ascii_of_string ".0") with (["."%char] ++ ["0"%char]) in H.
      change (String.list_ascii_of_string "-inf") with (["-"%char; "i"%char; "n"%char] ++ ["f"%char]) in H.
      rewrite app_assoc in H.
      apply app_inj_tail in H as [_ H]. discriminate.
    + exfalso. rewrite !string_cons_app in H. injection H as H.
      apply (f_equal String.list_ascii_of_string) in H. rewrite list_ascii_of_string_app in H.
      change (String.list_ascii_of_string ".0") with (["."%char] ++ ["0"%char]) in H.
      change (String.list_ascii_of_string "-inf") with (["-"%char; "i"%char; "n"%char] ++ ["f"%char]) in H.
      rewrite app_assoc in H. symmetry in H.
      apply app_inj_tail in H as [_ H]. discriminate.
    + right. split; [lia|]. split; [lia|].
      rewrite !string_cons_app in H. injection H as H.
      apply (f_equal String.list_ascii_of_string) in H.
      rewrite !list_ascii_of_string_app in H. apply app_inv_tail in H.
      by apply str_nat_inj, list_ascii_of_string_inj.
  - intros [[-> ->]|(Hn & Hm & Hl)]; [done|].
    destruct (Nat.eqb_spec n 0), (Nat.eqb_spec m 0); try lia. by rewrite Hl.
Qed.

(** ** [P_sim] as an upper-tail frequency *)

Lemma filter_lt_ge_count (d : list Q) s :
  (length (filter (fun x => Qltb x s = true) d) +
   length (filter (fun x => Qle_bool s x = true) d))%nat = length d.
Proof.
  induction d as [|x d IH]; [done|]. rewrite !filter_cons.
  destruct (decide (Qltb x s = true)) as [E1|E1], (decide (Qle_bool s x = true)) as [E2|E2];
    cbn [length]; try lia.
  - exfalso. apply Qltb_spec in E1. apply Qle_bool_iff in E2.
    exact (Qlt_not_le _ _ E1 E2).
  - exfalso. assert (H : ~ s <= x) by (intros H; apply Qle_bool_iff in H; congruence).
    apply Qnot_le_lt in H. apply Qltb_spec in H. congruence.
Qed.

(** ** Extra properties *)

Ltac qcheck := apply Qle_bool_imp_le; vm_compute; reflexivity.

(** X1: with its bucket present, ascending and non-empty, the p-value of
    [P_sim] is the fraction of the null similarities that are at least
    [sim]: the empirical upper-tail probability. *)
Theorem P_sim_upper_tail (srd : gmap string (list Q)) (s : Q) (n : nat) (d : list Q) :
  srd !! dist_key n = Some d -> is_sorted d = true -> d <> [] ->
  exists p, P_sim srd s n = Ok p /\
    p == inject_Z (Z.of_nat (length (filter (fun x => Qle_bool s x = true) d))) /
         inject_Z (Z.of_nat (length d)).
Proof.
  intros Hd Hs Hne. rewrite (P_sim_bucket srd s n d Hd Hne), searchsorted_left_rank by done.
  eexists. split; [reflexivity|].
  pose proof (filter_lt_ge_count d s) as Hc. unfold leftmost_rank.
  set (r := length (filter (fun x => Qltb x s = true) d)) in *.
  set (c := length (filter (fun x => Qle_bool s x = true) d)) in *.
  assert (HL : (0 < length d)%nat) by (destruct d; [done|cbn; lia]).
  pose proof (inject_nat_pos _ HL) as HLq.
  assert (HLc : inject_Z (Z.of_nat (length d)) ==
                inject_Z (Z.of_nat c) + inject_Z (Z.of_nat r)).
  { rewrite <- inject_Z_plus. replace (Z.of_nat (length d)) with (Z.of_nat c + Z.of_nat r)%Z
      by lia. reflexivity. }
  rewrite HLc in HLq |- *. field. intros E. rewrite E in HLq. discriminate.
Qed.

Lemma P_sim_upper_tail_witness :
  exists p, P_sim srd_ex 0.6 1 = Ok p /\ p == inject_Z 2 / inject_Z 5.
Proof.
  apply (P_sim_upper_tail srd_ex 0.6 1 null_bucket);
    [vm_compute; reflexivity|vm_compute; reflexivity|discriminate].
Defined.

(** X2: two connectivities are looked up in the same null bucket exactly
    when both are 0 (bucket "d-inf"), or both are positive with the same
    [floor(log2)]. *)
Theorem dist_key_same_bucket (n m : nat) :
  dist_key n = dist_key m <->
  (n = 0 /\ m = 0)%nat \/ (0 < n /\ 0 < m /\ Nat.log2 n = Nat.log2 m)%nat.
Proof. apply dist_key_eq_iff. Qed.

(** X3: the Benjamini-Hochberg correction never lowers a p-value: each
    adjusted p-value is at least its raw p-value, the raw p-values lying
    in [0,1]. *)
Theorem fdrcorrection_padj_ge_pval (pvals : list Q) (i : nat) :
  Forall (fun q => 0 <= q <= 1) pvals -> (i < length pvals)%nat ->
  nth i pvals 0 <= nth i (fdrcorrection_indep pvals) 0.
Proof. apply fdr_pval_le_padj. Qed.

Lemma fdrcorrection_padj_ge_pval_witness :
  nth 2 [0.6; 0.01; 0.03; 0.6] 0 <= nth 2 (fdrcorrection_indep [0.6; 0.01; 0.03; 0.6]) 0.
Proof.
  apply fdrcorrection_padj_ge_pval; [|cbn; lia].
  repeat constructor; qcheck.
Defined.

(** X4: the adjusted p-values lie in [0,1] (values above 1 are clipped to
    1), the raw p-values being non-negative. *)
Theorem fdrcorrection_bounds (pvals : list Q) :
  Forall (fun q => 0 <= q) pvals ->
  Forall (fun q => 0 <= q <= 1) (fdrcorrection_indep pvals).
Proof. apply fdr_padj_bounds. Qed.

Lemma fdrcorrection_bounds_witness :
  Forall (fun q => 0 <= q <= 1) (fdrcorrection_indep [0.9; 0.8; 0.95]).
Proof. apply fdrcorrection_bounds. repeat constructor; qcheck. Defined.

(** X5: the correction keeps the order of the p-values: a raw p-value
    no larger than another never gets a larger adjusted p-value; in
    particular equal raw p-values get equal adjusted ones, whatever order
    [argsort] puts them in. *)
Theorem fdrcorrection_monotone (pvals : list Q) (i j : nat) :
  Forall (fun q => 0 <= q) pvals ->
  (i < length pvals)%nat -> (j < length pvals)%nat ->
  nth i pvals 0 <= nth j pvals 0 ->
  nth i (fdrcorrection_indep pvals) 0 <= nth j (fdrcorrection_indep pvals) 0.
Proof. apply fdr_padj_mono. Qed.

Lemma fdrcorrection_monotone_witness :
  nth 3 (fdrcorrection_indep [0.6; 0.01; 0.03; 0.6]) 0 <=
  nth 0 (fdrcorrection_indep [0.6; 0.01; 0.03; 0.6]) 0.
Proof.
  apply fdrcorrection_monotone; [repeat constructor; qcheck|cbn; lia|cbn; lia|qcheck].
Defined.

(** X6: every row [get_GO_df] returns is a GO term among the neighbours of
    the gene: a node of the graph that carries a "GO" attribute. *)
Theorem get_GO_df_GO_neighbours (gw : genewalk) (n : string) (N_gene_con : nat)
  (alpha_FDR : Q) (out : list go_row) :
  get_GO_df gw n N_gene_con alpha_FDR = Ok out ->
  forall r, r ∈ out ->
  exists nbrs, g_adj (MG_graph gw) !! n = Some nbrs /\ go_id r ∈ nbrs /\
    go_id r ∈ g_nodes (MG_graph gw) /\
    exists a v, g_attr (MG_graph gw) !! go_id r = Some a /\ a !! "GO" = Some v.
Proof.
  intros Hg r Hr. destruct (get_GO_df_row_GO _ _ _ _ _ _ Hg Hr) as (nbrs & Hn & Hin & Hgo).
  exists nbrs. split; [done|]. split; [done|]. by apply GO_nodes_attr.
Qed.

Lemma get_GO_df_GO_neighbours_witness :
  (match get_GO_df gw_ex "A1" 3 0.5 with Ok o => o | Err _ => [] end) <> [] /\
  Forall (fun r =>
    exists nbrs, g_adj (MG_graph gw_ex) !! "A1" = Some nbrs /\ go_id r ∈ nbrs /\
      go_id r ∈ g_nodes (MG_graph gw_ex) /\
      exists a v, g_attr (MG_graph gw_ex) !! go_id r = Some a /\ a !! "GO" = Some v)
    (match get_GO_df gw_ex "A1" 3 0.5 with Ok o => o | Err _ => [] end).
Proof.
  split; [vm_compute; discriminate|].
  apply Forall_forall, (get_GO_df_GO_neighbours gw_ex "A1" 3 0.5).
  vm_compute. reflexivity.
Defined.

(** X7: every row [get_GO_df] returns has a raw p-value in [0,1], no larger
    than its adjusted p-value, which is itself below [alpha_FDR]: the raw
    p-value of a reported term is below the threshold too. *)
Theorem get_GO_df_pval_le_padj (gw : genewalk) (n : string) (N_gene_con : nat)
  (alpha_FDR : Q) (out : list go_row) :
  get_GO_df gw n N_gene_con alpha_FDR = Ok out ->
  forall r, r ∈ out ->
  0 <= pval r /\ pval r <= padj r /\ padj r < alpha_FDR /\ padj r <= 1.
Proof. intros Hg r Hr. exact (get_GO_df_row_pvals _ _ _ _ _ _ Hg Hr). Qed.

Lemma get_GO_df_pval_le_padj_witness :
  (match get_GO_df gw_ex "A1" 3 0.5 with Ok o => o | Err _ => [] end) <> [] /\
  Forall (fun r => 0 <= pval r /\ pval r <= padj r /\ padj r < 0.5 /\ padj r <= 1)
    (match get_GO_df gw_ex "A1" 3 0.5 with Ok o => o | Err _ => [] end).
Proof.
  split; [vm_compute; discriminate|].
  apply Forall_forall, (get_GO_df_pval_le_padj gw_ex "A1" 3 0.5).
  vm_compute. reflexivity.
Defined.

(** X8: [get_GO_df] keeps the order of [most_similar]: when the ranking
    comes by descending similarity, so do the rows. *)
Theorem get_GO_df_similarity_order (gw : genewalk) (n : string) (N_gene_con : nat)
  (alpha_FDR : Q) (ranked : list (string * Q)) (out : list go_row) :
  nv_most_similar gw n = Some ranked ->
  StronglySorted (fun x y => y.2 <= x.2) ranked ->
  get_GO_df gw n N_gene_con alpha_FDR = Ok out ->
  StronglySorted (fun r1 r2 => similarity r2 <= similarity r1) out.
Proof.
  intros Hr Hs Hg. unfold get_GO_df in Hg.
  destruct (GO_table gw n N_gene_con) as [full|e] eqn:Ef; [|discriminate].
  cbn in Hg. injection Hg as <-. apply StronglySorted_filter.
  destruct (GO_table_spec _ _ _ _ Ef) as (simdf & cs & Hsd & Hc & ->).
  destruct (GO_simdf_spec _ _ _ Hsd) as (nbrs & ranked' & _ & Hr' & ->).
  rewrite Hr in Hr'. injection Hr' as <-.
  apply (StronglySorted_map (fun a b => b <= a) similarity).
  rewrite zip_with_padj_similarity by (rewrite fdrcorrection_indep_length, length_map; done).
  rewrite (cand_loop_similarities _ _ _ _ (cand_loop_spec _ _ _ _ Hc)).
  apply (StronglySorted_map_2 (fun a b => b <= a) snd). by apply StronglySorted_filter.
Qed.

Lemma get_GO_df_similarity_order_witness :
  StronglySorted (fun r1 r2 => similarity r2 <= similarity r1)
    (match get_GO_df gw_ex "A1" 3 0.5 with Ok o => o | Err _ => [] end).
Proof.
  apply (get_GO_df_similarity_order gw_ex "A1" 3 0.5
           [("T1", 0.95); ("T3", 0.92); ("A2", 0.85); ("T2", 0.8)]);
    [vm_compute; reflexivity|repeat first [qcheck | constructor]|vm_compute; reflexivity].
Defined.

(** X9: a gene of the graph without a vector makes [get_GO_df] raise
    [KeyError] (from [most_similar]); [generate_output] skips it. *)
Theorem no_vector_skips_node (gw : genewalk) (n : string) (nbg : list string) :
  g_adj (MG_graph gw) !! n = Some nbg -> nv_most_similar gw n = None ->
  (forall N_gene_con alpha_FDR, get_GO_df gw n N_gene_con alpha_FDR = Err KeyError) /\
  (forall alpha_FDR rest outdf,
     gen_loop gw alpha_FDR (n :: rest) outdf = gen_loop gw alpha_FDR rest outdf).
Proof.
  intros Hn Hv.
  assert (Hdf : forall N alpha, get_GO_df gw n N alpha = Err KeyError).
  { intros N alpha. unfold get_GO_df, GO_table, GO_simdf, getitem.
    rewrite Hn. cbn. by rewrite Hv. }
  split; [exact Hdf|].
  intros alpha rest outdf. cbn [gen_loop].
  destruct (process_node gw alpha n) as [rows|e] eqn:Ep.
  - destruct (process_node_ok _ _ _ _ Ep) as [->|(adj & h' & GOdf & Hadj & Hg & ->)].
    + by rewrite app_nil_r.
    + by rewrite Hdf in Hg.
  - destruct (process_node_err _ _ _ _ Ep) as [->|(adj & Hadj & Hg)]; [done|].
    rewrite Hdf in Hg. injection Hg as <-. done.
Qed.

Lemma no_vector_skips_node_witness :
  get_GO_df gw_ex "T1" 2 0.5 = Err KeyError /\
  gen_loop gw_ex 0.5 ["T1"; "A1"] [] = gen_loop gw_ex 0.5 ["A1"] [].
Proof.
  destruct (no_vector_skips_node gw_ex "T1" ["A1"; "A2"]) as [H1 H2];
    [vm_compute; reflexivity|vm_compute; reflexivity|].
  split; [apply H1|apply H2].
Defined.

(** X10: every row of the report is significant (raw p-value no larger
    than adjusted p-value, itself below [alpha_FDR]) and belongs to a node
    of the graph whose HGNC id is in the gene list; its [N_con(gene)] is
    the degree of that node and its GO term is a GO neighbour of it. *)
Theorem generate_output_rows (gw : genewalk) (alpha_FDR : Q) (out : list report_row) :
  generate_output gw alpha_FDR = Ok out ->
  forall r, r ∈ out ->
  r_pval r <= r_padj r /\ r_padj r < alpha_FDR /\ r_hugo r ∈ g_nodes (MG_graph gw) /\
  exists attrs h nbg, g_attr (MG_graph gw) !! r_hugo r = Some attrs /\
    attrs !! "HGNC" = Some h /\ h ∈ hgncid gw /\
    g_adj (MG_graph gw) !! r_hugo r = Some nbg /\ r_n_con_gene r = length nbg /\
    r_go_id r ∈ nbg /\ r_go_id r ∈ GO_nodes (MG_graph gw).
Proof.
  intros Ho r Hr. destruct (report_row_props _ _ _ _ Ho Hr) as (_ & H1 & H2 & H3 & H4 & _).
  done.
Qed.

Lemma generate_output_rows_witness :
  (match generate_output gw_ex 0.5 with Ok o => o | Err _ => [] end) <> [] /\
  Forall (fun r =>
  r_pval r <= r_padj r /\ r_padj r < 0.5 /\ r_hugo r ∈ g_nodes (MG_graph gw_ex) /\
  exists attrs h nbg, g_attr (MG_graph gw_ex) !! r_hugo r = Some attrs /\
    attrs !! "HGNC" = Some h /\ h ∈ hgncid gw_ex /\
    g_adj (MG_graph gw_ex) !! r_hugo r = Some nbg /\ r_n_con_gene r = length nbg /\
    r_go_id r ∈ nbg /\ r_go_id r ∈ GO_nodes (MG_graph gw_ex))
  (match generate_output gw_ex 0.5 with Ok o => o | Err _ => [] end).
Proof.
  split; [vm_compute; discriminate|].
  apply Forall_forall, (generate_output_rows gw_ex 0.5). vm_compute. reflexivity.
Defined.

(** X11: with a threshold [alpha_FDR <= 0] the report is empty (adjusted
    p-values are never negative). *)
Theorem generate_output_nonpositive_alpha (gw : genewalk) (alpha_FDR : Q)
  (out : list report_row) :
  alpha_FDR <= 0 -> generate_output gw alpha_FDR = Ok out -> out = [].
Proof.
  intros Ha Ho. destruct out as [|r out]; [done|]. exfalso.
  destruct (report_row_props _ _ _ r Ho ltac:(apply elem_of_cons; by left))
    as (H0 & H1 & H2 & _).
  assert (H : 0 < 0).
  { eapply Qle_lt_trans; [exact H0|]. eapply Qle_lt_trans; [exact H1|].
    eapply Qlt_le_trans; [exact H2|exact Ha]. }
  discriminate.
Qed.

Lemma generate_output_nonpositive_alpha_witness :
  (match generate_output gw_ex 0 with Ok o => o | Err _ => [] end) = [].
Proof.
  apply (generate_output_nonpositive_alpha gw_ex 0); [qcheck|vm_compute; reflexivity].
Defined.

(** X12: when [GW[tr]] is the object itself, the [HGNC:ID] column of every
    row is the HGNC attribute of its [HUGO] node, hence one of the genes
    of interest. *)
Theorem generate_output_hgnc_column (gw : genewalk) (alpha_FDR : Q) (out : list report_row) :
  gw_tr_graph gw = MG_graph gw ->
  generate_output gw alpha_FDR = Ok out ->
  forall r, r ∈ out ->
  r_hgnc r ∈ hgncid gw /\
  exists attrs, g_attr (MG_graph gw) !! r_hugo r = Some attrs /\
    attrs !! "HGNC" = Some (r_hgnc r).
Proof.
  intros Htr Ho r Hr.
  destruct (report_row_props _ _ _ _ Ho Hr)
    as (_ & _ & _ & _ & (attrs & h & nbg & Ha & Hh & Hin & _) & (ta & Hta & Hh')).
  rewrite Htr, Ha in Hta. injection Hta as <-. rewrite Hh in Hh'. injection Hh' as ->.
  split; [done|]. by exists attrs.
Qed.

Lemma generate_output_hgnc_column_witness :
  (match generate_output gw_ex 0.5 with Ok o => o | Err _ => [] end) <> [] /\
  Forall (fun r =>
    r_hgnc r ∈ hgncid gw_ex /\
    exists attrs, g_attr (MG_graph gw_ex) !! r_hugo r = Some attrs /\
      attrs !! "HGNC" = Some (r_hgnc r))
  (match generate_output gw_ex 0.5 with Ok o => o | Err _ => [] end).
Proof.
  split; [vm_compute; discriminate|].
  apply Forall_forall, (generate_output_hgnc_column gw_ex 0.5); vm_compute; reflexivity.
Defined.

(** X13: a gene list with a repeated HGNC id never yields a report:
    [set_categories] raises [ValueError] once the loop has run. *)
Theorem generate_output_duplicate_ids (gw : genewalk) :
  ~ NoDup (hgncid gw) ->
  (forall alpha_FDR out, generate_output gw alpha_FDR <> Ok out) /\
  (forall alpha_FDR outdf, gen_loop gw alpha_FDR (g_nodes (MG_graph gw)) [] = Ok outdf ->
     generate_output gw alpha_FDR = Err ValueError).
Proof.
  intros Hd. split.
  - intros alpha out Ho. apply Hd. by destruct (generate_output_spec _ _ _ Ho).
  - intros alpha outdf Hl. unfold generate_output, sort_report. rewrite Hl. cbn.
    by rewrite decide_False.
Qed.

Lemma generate_output_duplicate_ids_witness :
  generate_output gw_dup 0.5 = Err ValueError.
Proof.
  assert (Hd : ~ NoDup (hgncid gw_dup))
    by (apply (bool_decide_unpack _); vm_compute; exact I).
  apply (proj2 (generate_output_duplicate_ids gw_dup Hd) 0.5
           (match gen_loop gw_dup 0.5 (g_nodes (MG_graph gw_dup)) [] with
            | Ok o => o | Err _ => [] end)).
  vm_compute. reflexivity.
Defined.

(** X14: the report loses no row: its rows are exactly the rows of the
    graph nodes whose processing succeeded. *)
Theorem generate_output_complete (gw : genewalk) (alpha_FDR : Q) (out : list report_row) :
  generate_output gw alpha_FDR = Ok out ->
  forall r, r ∈ out <-> exists n rows, n ∈ g_nodes (MG_graph gw) /\
    process_node gw alpha_FDR n = Ok rows /\ r ∈ rows.
Proof.
  intros Ho r. destruct (generate_output_spec _ _ _ Ho) as (_ & outdf & Hl & Hp).
  split.
  - intros Hr. apply list_elem_of_In in Hr.
    apply (Permutation_in _ (Permutation_sym Hp)) in Hr. apply list_elem_of_In in Hr.
    destruct (gen_loop_source _ _ _ _ _ Hl r Hr) as [Hr'|H]; [by apply elem_of_nil in Hr'|].
    exact H.
  - intros (n & rows & Hn & Hpn & Hr).
    destruct (gen_loop_complete _ _ _ _ _ Hl) as [_ H].
    pose proof (H n rows r Hn Hpn Hr) as Hin. apply list_elem_of_In in Hin.
    apply list_elem_of_In. exact (Permutation_in _ Hp Hin).
Qed.

Lemma generate_output_complete_witness :
  (match generate_output gw_ex 0.5 with Ok o => o | Err _ => [] end) <> [] /\
  Forall (fun r =>
    exists n rows, n ∈ g_nodes (MG_graph gw_ex) /\ process_node gw_ex 0.5 n = Ok rows /\
      r ∈ rows)
  (match generate_output gw_ex 0.5 with Ok o => o | Err _ => [] end).
Proof.
  split; [vm_compute; discriminate|].
  apply Forall_forall. intros r.
  apply (generate_output_complete gw_ex 0.5); vm_compute; reflexivity.
Defined.

(** X15: the final sort is stable: rows that the keys [HGNC:ID], [padj],
    [pval] do not tell apart keep the order in which the loop appended
    them. *)
Theorem generate_output_stable (gw : genewalk) (alpha_FDR : Q) (out : list report_row) :
  generate_output gw alpha_FDR = Ok out ->
  exists outdf, gen_loop gw alpha_FDR (g_nodes (MG_graph gw)) [] = Ok outdf /\
  forall r,
    filter (fun y => row_le (hgncid gw) y r && row_le (hgncid gw) r y = true) out =
    filter (fun y => row_le (hgncid gw) y r && row_le (hgncid gw) r y = true) outdf.
Proof.
  unfold generate_output, sort_report.
  destruct (gen_loop gw alpha_FDR (g_nodes (MG_graph gw)) []) as [outdf|e]; [|discriminate].
  cbn. destruct (decide (NoDup (hgncid gw))) as [Hnd|]; [|discriminate].
  intros H. injection H as <-. exists outdf. split; [done|].
  intros r. apply sort_values_filter.
Qed.

Lemma generate_output_stable_witness :
  exists outdf, gen_loop gw_ex 0.5 (g_nodes (MG_graph gw_ex)) [] = Ok outdf /\
  Forall (fun r =>
    filter (fun y => row_le (hgncid gw_ex) y r && row_le (hgncid gw_ex) r y = true)
      (match generate_output gw_ex 0.5 with Ok o => o | Err _ => [] end) =
    filter (fun y => row_le (hgncid gw_ex) y r && row_le (hgncid gw_ex) r y = true) outdf)
  (match generate_output gw_ex 0.5 with Ok o => o | Err _ => [] end).
Proof.
  destruct (generate_output_stable gw_ex 0.5 (match generate_output gw_ex 0.5 with Ok o => o | Err _ => [] end)) as (outdf & Hl & Hf);
    [vm_compute; reflexivity|].
  exists outdf. split; [exact Hl|]. apply Forall_forall. intros r _. apply Hf.
Defined.

(** X16: a node adds nothing to the report, and the loop goes on, when it
    has no attribute dict or no HGNC attribute (a GO-term node: the
    [KeyError] is caught) or when its HGNC id is not in the gene list. *)
Theorem non_gene_node_skipped (gw : genewalk) (n : string) :
  g_attr (MG_graph gw) !! n = None \/
  (exists attrs, g_attr (MG_graph gw) !! n = Some attrs /\
     (attrs !! "HGNC" = None \/ exists h, attrs !! "HGNC" = Some h /\ h ∉ hgncid gw)) ->
  forall alpha_FDR rest outdf,
    gen_loop gw alpha_FDR (n :: rest) outdf = gen_loop gw alpha_FDR rest outdf.
Proof.
  intros Hn alpha rest outdf. cbn [gen_loop]. unfold process_node, getitem.
  destruct Hn as [Hn|(attrs & Ha & [Hh|(h & Hh & Hnin)])].
  - by rewrite Hn.
  - rewrite Ha. cbn. by rewrite Hh.
  - rewrite Ha. cbn. rewrite Hh. cbn. rewrite decide_False by done. cbn.
    by rewrite app_nil_r.
Qed.

Lemma non_gene_node_skipped_witness :
  gen_loop gw_ex 0.5 ["T1"; "A1"] [] = gen_loop gw_ex 0.5 ["A1"] [].
Proof.
  apply (non_gene_node_skipped gw_ex "T1"). right.
  exists (list_to_map [("GO", "GO:1"); ("name", "term one")]).
  split; [vm_compute; reflexivity|]. left. vm_compute. reflexivity.
Defined.
